(** * TopicCache: the discovery index of rmw_fastrtps_shared_cpp

    A shallow embedding of [TopicCache] (topic_cache.hpp) and of the theorems
    that relate it to its specification.

    - [std::unordered_map<std::string, std::vector<std::string>>] is a
      [gmap string (list string)]; [std::map<GUID_t, NameToNamesMap>] is a
      [gmap GUID_t (gmap string (list string))].  No operation with a stated
      property depends on the iteration order of either map.
    - A member function is a computation in a small state monad over the two
      guarded members.  The state after the call is part of the result, so
      that "leaves the maps unchanged" is a statement and not a convention.
    - [std::vector::erase] needs a dereferenceable iterator.  Erasing
      [end()] has no defined behaviour; the embedding makes it the outcome
      [Undefined], after which there is no state to speak of.
    - [size_t] is a 64-bit unsigned integer: a [Z] reduced modulo [2^64].
    - The mutex is not part of the sequential state: every member function
      holds it from its first to its last statement.
    - The debug log lines and [operator<<] read the maps and are left out. *)

From stdpp Require Import gmap gmultiset strings list fin_maps.
From Stdlib Require Import ZArith Lia Ascii.

Open Scope string_scope.
Open Scope list_scope.
Open Scope nat_scope.

(** ** Outcomes and the state monad *)

Inductive outcome (A : Type) : Type :=
| Ok (a : A)
| Undefined.
Arguments Ok {A} a.
Arguments Undefined {A}.

(** ** The pieces of the C++ standard library that the class uses *)

Module Std.

(** [std::find(v.begin(), v.end(), x)]: the position of the first element
    equal to [x], or [v.end()], that is [length v]. *)
Fixpoint find (v : list string) (x : string) : nat :=
  match v with
  | [] => 0
  | y :: v' => if decide (y = x) then 0 else S (find v' x)
  end.

(** [v.erase(pos)]: defined only for a position before [v.end()]. *)
Definition erase (v : list string) (pos : nat) : option (list string) :=
  if decide (pos < length v) then Some (delete pos v) else None.

(** [v.push_back(x)] *)
Definition push_back (x : string) (v : list string) : list string := v ++ [x].

(** [v.empty()] *)
Definition empty (v : list string) : bool :=
  match v with [] => true | _ => false end.

(** [f(m[k])] for a map whose mapped type is default-constructed as [d]:
    [operator[]] inserts [d] under an absent key and hands out a reference
    to the mapped value, which [f] then updates in place. *)
Definition at_key `{Countable K} {V : Type} (d : V) (k : K) (f : V → V)
    (m : gmap K V) : gmap K V :=
  <[k := f (default d (m !! k))]> m.

(** [size_t] arithmetic. *)
Definition SIZE_MOD : Z := (2 ^ 64)%Z.
Definition size_add (a b : Z) : Z := ((a + b) mod SIZE_MOD)%Z.

End Std.

Abbreviation NameToNamesMap := (gmap string (list string)).
Abbreviation TopicToTypes := (gmap string (list string)).

(** [m.empty()] for the inner map. *)
Definition map_is_empty (m : NameToNamesMap) : bool := bool_decide (m = ∅).

(** [GUID_t], [InstanceHandle_t] and [iHandle2GUID] come from Fast-RTPS and
    from a header of this package that the class only calls.  The class
    uses a GUID as a map key and nothing else, so a GUID is any countable
    type and [iHandle2GUID] any function into it. *)
Class Handle2GUID (InstanceHandle_t GUID_t : Type) : Type :=
  iHandle2GUID : InstanceHandle_t → GUID_t.

Section TopicCache.

Context {GUID_t : Type} `{Countable GUID_t}.
Context {InstanceHandle_t : Type} `{Handle2GUID InstanceHandle_t GUID_t}.

Abbreviation ParticipantTopicMap := (gmap GUID_t (gmap string (list string))).

Record TopicCache : Type := mkTopicCache {
  topic_to_types_ : gmap string (list string);
  participant_to_topics_ : gmap GUID_t (gmap string (list string))
}.

(** The index as its constructor leaves it. *)
Definition empty_cache : TopicCache := mkTopicCache ∅ ∅.

Definition M (A : Type) : Type := TopicCache → outcome (A * TopicCache).

#[global] Instance M_ret : MRet M := λ A a c, Ok (a, c).
#[global] Instance M_bind : MBind M := λ A B f m c,
  match m c with
  | Ok (a, c') => f a c'
  | Undefined => Undefined
  end.

Definition get_topic_to_types : M TopicToTypes :=
  λ c, Ok (topic_to_types_ c, c).
Definition get_participant_to_topics : M ParticipantTopicMap :=
  λ c, Ok (participant_to_topics_ c, c).
Definition modify_topic_to_types (f : TopicToTypes → TopicToTypes) : M unit :=
  λ c, Ok (tt, mkTopicCache (f (topic_to_types_ c)) (participant_to_topics_ c)).
Definition modify_participant_to_topics
    (f : ParticipantTopicMap → ParticipantTopicMap) : M unit :=
  λ c, Ok (tt, mkTopicCache (topic_to_types_ c) (f (participant_to_topics_ c))).
(** A step that is defined only when [o] is. *)
Definition defined {A} (o : option A) : M A :=
  λ c, match o with Some a => Ok (a, c) | None => Undefined end.
Definition when (b : bool) (m : M unit) : M unit :=
  if b then m else mret tt.

(** *** Private helpers *)

Definition initializeTopic (topic_name : string)
    (topic_to_types : TopicToTypes) : TopicToTypes :=
  match topic_to_types !! topic_name with
  | None => <[topic_name := []]> topic_to_types
  | Some _ => topic_to_types
  end.

Definition initializeParticipantMap (map : ParticipantTopicMap)
    (guid : GUID_t) : ParticipantTopicMap :=
  match map !! guid with
  | None => <[guid := ∅]> map
  | Some _ => map
  end.

(** *** Public member functions *)

(** The caller's [*topics] is an argument; its content after the call is
    the second component of the result. *)
Definition cloneParticipantTopics (participant_guid : GUID_t)
    (topics : NameToNamesMap) : M (bool * NameToNamesMap) :=
  ptt ← get_participant_to_topics;
  match ptt !! participant_guid with
  | None => mret (false, topics)
  | Some it_second => mret (true, it_second)
  end.

Definition cloneTopicToTypes : M NameToNamesMap := get_topic_to_types.

Definition addTopic (rtpsParticipantKey : InstanceHandle_t)
    (topic_name type_name : string) : M bool :=
  modify_topic_to_types (initializeTopic topic_name);;
  let guid := iHandle2GUID rtpsParticipantKey in
  modify_participant_to_topics (λ map, initializeParticipantMap map guid);;
  modify_participant_to_topics (Std.at_key ∅ guid (initializeTopic topic_name));;
  modify_topic_to_types (Std.at_key [] topic_name (Std.push_back type_name));;
  modify_participant_to_topics
    (Std.at_key ∅ guid (Std.at_key [] topic_name (Std.push_back type_name)));;
  mret true.

Definition removeTopic (rtpsParticipantKey : InstanceHandle_t)
    (topic_name type_name : string) : M bool :=
  ttt ← get_topic_to_types;
  match ttt !! topic_name with
  | None => mret false
  | Some _ =>
    (let type_vec := default [] (ttt !! topic_name) in
     erased ← defined (Std.erase type_vec (Std.find type_vec type_name));
     modify_topic_to_types (Std.at_key [] topic_name (λ _, erased));;
     when (Std.empty erased) (modify_topic_to_types (delete topic_name)));;
    let guid := iHandle2GUID rtpsParticipantKey in
    ptt ← get_participant_to_topics;
    match ptt !! guid with
    | Some guid_topics =>
      match guid_topics !! topic_name with
      | Some _ =>
        let type_vec := default [] (guid_topics !! topic_name) in
        erased ← defined (Std.erase type_vec (Std.find type_vec type_name));
        modify_participant_to_topics
          (Std.at_key ∅ guid (Std.at_key [] topic_name (λ _, erased)));;
        when (Std.empty erased)
          (modify_participant_to_topics (Std.at_key ∅ guid (delete topic_name)));;
        ptt' ← get_participant_to_topics;
        when (map_is_empty (default ∅ (ptt' !! guid)))
          (modify_participant_to_topics (delete guid))
      | None => mret tt
      end
    | None => mret tt
    end;;
    mret true
  end.

(** The loop of [countParticipants], with its accumulator. *)
Fixpoint count_loop (fqdns : list string) (count : Z) : M Z :=
  match fqdns with
  | [] => mret count
  | topic_fqdn :: rest =>
    ttt ← get_topic_to_types;
    match ttt !! topic_fqdn with
    | Some it_second =>
      count_loop rest (Std.size_add count (Z.of_nat (length it_second)))
    | None => count_loop rest count
    end
  end.

Definition countParticipants (fqdns : list string) : M Z :=
  count_loop fqdns 0%Z.

(** ** Reachable states *)

(** The two mutating calls a discovery listener makes. *)
Inductive call : Type :=
| Add (rtpsParticipantKey : InstanceHandle_t) (topic_name type_name : string)
| Remove (rtpsParticipantKey : InstanceHandle_t) (topic_name type_name : string).

Definition exec (op : call) : M bool :=
  match op with
  | Add h t ty => addTopic h t ty
  | Remove h t ty => removeTopic h t ty
  end.

(** A state is reachable when a sequence of calls, each with a defined
    outcome, leads to it from the empty index. *)
Inductive reachable : TopicCache → Prop :=
| reachable_empty : reachable empty_cache
| reachable_step c op r c' :
    reachable c → exec op c = Ok (r, c') → reachable c'.

(** The participant behind [h] holds a registration of [ty] on [t]. *)
Definition holds (c : TopicCache) (h : InstanceHandle_t) (t ty : string) : Prop :=
  ty ∈ default [] (default ∅ (participant_to_topics_ c !! iHandle2GUID h) !! t).

(** Reachable by calls in which a participant only withdraws what it
    holds. *)
Inductive matched_reachable : TopicCache → Prop :=
| matched_empty : matched_reachable empty_cache
| matched_add c h t ty r c' :
    matched_reachable c → addTopic h t ty c = Ok (r, c') →
    matched_reachable c'
| matched_remove c h t ty r c' :
    matched_reachable c → holds c h t ty →
    removeTopic h t ty c = Ok (r, c') → matched_reachable c'.

(** A sequence of calls, run from [c]; undefined as soon as one call is. *)
Fixpoint run (ops : list call) (c : TopicCache) : outcome TopicCache :=
  match ops with
  | [] => Ok c
  | op :: rest =>
    match exec op c with
    | Ok (_, c') => run rest c'
    | Undefined => Undefined
    end
  end.

(** The same, refusing a removal by a participant that does not hold
    the type. *)
Fixpoint run_matched (ops : list call) (c : TopicCache)
    : outcome TopicCache :=
  match ops with
  | [] => Ok c
  | op :: rest =>
    if match op with
       | Add _ _ _ => true
       | Remove h t ty =>
         bool_decide
           (ty ∈ default []
              (default ∅ (participant_to_topics_ c !! iHandle2GUID h) !! t))
       end
    then match exec op c with
         | Ok (_, c') => run_matched rest c'
         | Undefined => Undefined
         end
    else Undefined
  end.

(** ** The invariants of the specification *)

Definition types_nonempty (m : NameToNamesMap) : Prop :=
  ∀ t v, m !! t = Some v → v ≠ [].

(** I2 and I4: nothing empty is kept, at either level. *)
Definition no_empty_collections (c : TopicCache) : Prop :=
  types_nonempty (topic_to_types_ c) ∧
  ∀ g topics, participant_to_topics_ c !! g = Some topics →
              topics ≠ ∅ ∧ types_nonempty topics.

(** The types recorded under a topic, as a multiset; nothing under an
    absent topic. *)
Definition types_of (m : NameToNamesMap) (t : string) : gmultiset string :=
  list_to_set_disj (default [] (m !! t)).

Definition global_types (c : TopicCache) (t : string) : gmultiset string :=
  types_of (topic_to_types_ c) t.

Definition local_types (c : TopicCache) (g : GUID_t) (t : string)
    : gmultiset string :=
  types_of (default ∅ (participant_to_topics_ c !! g)) t.

(** The multiset union, over all participants, of their types on [t]. *)
Definition sum_types (ptt : ParticipantTopicMap) (t : string)
    : gmultiset string :=
  map_fold (λ _ topics acc, types_of topics t ⊎ acc) ∅ ptt.

Definition participants_types (c : TopicCache) (t : string)
    : gmultiset string :=
  sum_types (participant_to_topics_ c) t.

(** I3, for the topics that are keys of the global map. *)
Definition cross_map_consistent (c : TopicCache) : Prop :=
  ∀ t, is_Some (topic_to_types_ c !! t) →
       participants_types c t = global_types c t ∧
       ∀ g, local_types c g t ⊆ global_types c t.

(** I1 speaks of a topic that "has at least one registered (participant,
    type) entry": some participant holds a type on it. *)
Definition registered (c : TopicCache) (t : string) : Prop :=
  ∃ g topics v, participant_to_topics_ c !! g = Some topics ∧
                topics !! t = Some v ∧ v ≠ [].

(** ** The specification's words, for comparison with the code *)

(** What [countParticipants] is specified to return.
    "The sum, over all names found in the global map, of the lengths of
    their TypeLists": the names that are keys, in order and with
    repetitions, each contributing the length of its list. *)
Definition registrations (c : TopicCache) (names : list string) : Z :=
  foldr Z.add 0%Z
    ((λ v : list string, Z.of_nat (length v))
       <$> omap (λ name, topic_to_types_ c !! name) names).

(** What a round trip of [addTopic] and [removeTopic] does to a list:
    [ty]'s first occurrence in [v], if there is one, moved to the end. *)
Fixpoint move_to_back (ty : string) (v : list string) : list string :=
  match v with
  | [] => []
  | y :: v' => if decide (y = ty) then v' ++ [ty] else y :: move_to_back ty v'
  end.

(** ** Shapes that the closed forms of the member functions use *)

(** What [removeTopic] leaves under [key] once its vector has become
    [erased]: the vector, or nothing when the vector is empty. *)
Definition settle (key : string) (erased : list string)
    (m : NameToNamesMap) : NameToNamesMap :=
  if Std.empty erased then delete key m else <[key := erased]> m.

(** The same one level up, for a participant and its topic map. *)
Definition settle_participant (guid : GUID_t) (topics : NameToNamesMap)
    (m : ParticipantTopicMap) : ParticipantTopicMap :=
  if map_is_empty topics then delete guid m else <[guid := topics]> m.

(** The registration a call adds or withdraws, seen from topic [t']. *)
Definition registration (t ty t' : string) : gmultiset string :=
  if decide (t = t') then {[+ ty +]} else ∅.

End TopicCache.

(** The change that one call makes to the number of registrations on
    [t], given what the call returned. *)
Definition count_change {InstanceHandle_t : Type}
    (op : call (InstanceHandle_t := InstanceHandle_t)) (r : bool) (t : string)
    : Z :=
  match op with
  | Add _ t0 _ => if decide (t0 = t) then 1%Z else 0%Z
  | Remove _ t0 _ => if decide (t0 = t) then (if r then (-1)%Z else 0%Z) else 0%Z
  end.

(** ** rmw_count.cpp

    [__rmw_count_publishers] and [__rmw_count_subscribers] answer a count
    query from the writer and from the reader cache of a node. *)

Inductive rmw_ret_t : Type :=
| RMW_RET_OK
| RMW_RET_ERROR.

(** [_get_all_ros_prefixes] is declared in namespace_prefix.hpp, which the
    file only includes: the prefixes are any list of strings. *)
Class RosPrefixes : Type := _get_all_ros_prefixes : list string.

(** [topic_name[0] == '/'], for a C string: the empty string starts with
    its terminator. *)
Definition starts_with_slash (topic_name : string) : bool :=
  match topic_name with
  | String c _ => bool_decide (c = "/"%char)
  | EmptyString => false
  end.

Section RmwCount.

Context {GUID_t : Type} `{Countable GUID_t}.
Context `{RosPrefixes}.
(** An implementation identifier is a [const char *] that the functions
    compare as a pointer. *)
Context {Identifier : Type} `{EqDecision Identifier}.

(** [CustomParticipantInfo] and its listener are declared in
    custom_participant_info.hpp.  The two functions use
    [impl->listener->writer_topic_cache] and
    [impl->listener->reader_topic_cache] and nothing else of them. *)
Record CustomParticipantInfo : Type := mkCustomParticipantInfo {
  writer_topic_cache : TopicCache (GUID_t := GUID_t);
  reader_topic_cache : TopicCache (GUID_t := GUID_t)
}.

(** The two members of [rmw_node_t] that the functions read. *)
Record rmw_node_t : Type := mk_rmw_node_t {
  implementation_identifier : Identifier;
  data : CustomParticipantInfo
}.

(** What a call leaves behind: its return value, [*count], the message of
    the rmw error state ([RMW_SET_ERROR_MSG]) and the node with the caches
    behind [node->data]. *)
Record rmw_count_result : Type := mk_rmw_count_result {
  ret : rmw_ret_t;
  count_after : Z;
  error_msg_after : option string;
  node_after : option rmw_node_t
}.

(** "Build the list of all possible topic FQDN": the statements that both
    functions share. *)
Definition build_topic_fqdns (topic_name : string) : list string :=
  let ros_prefixes := _get_all_ros_prefixes in
  let topic_fqdns := Std.push_back topic_name [] in
  if starts_with_slash topic_name
  then foldl (λ topic_fqdns prefix,
                Std.push_back (prefix +:+ topic_name) topic_fqdns)
             topic_fqdns ros_prefixes
  else topic_fqdns.

(** [node] is [None] for a null pointer; [count] and [error_msg] are
    [*count] and the error message before the call.  [topic_name] and
    [count] are taken to point to a C string and to a [size_t]: the
    functions use them without a test. *)
Definition __rmw_count_publishers (identifier : Identifier)
    (node : option rmw_node_t) (topic_name : string)
    (count : Z) (error_msg : option string) : outcome rmw_count_result :=
  match node with
  | None =>
    Ok (mk_rmw_count_result RMW_RET_ERROR count (Some "null node handle") node)
  | Some node_ =>
    if decide (implementation_identifier node_ ≠ identifier)
    then Ok (mk_rmw_count_result RMW_RET_ERROR count
               (Some "node handle not from this implementation") node)
    else
      let topic_fqdns := build_topic_fqdns topic_name in
      let impl := data node_ in
      match countParticipants topic_fqdns (writer_topic_cache impl) with
      | Ok (result, cache) =>
        Ok (mk_rmw_count_result RMW_RET_OK result error_msg
              (Some (mk_rmw_node_t (implementation_identifier node_)
                       (mkCustomParticipantInfo cache (reader_topic_cache impl)))))
      | Undefined => Undefined
      end
  end.

Definition __rmw_count_subscribers (identifier : Identifier)
    (node : option rmw_node_t) (topic_name : string)
    (count : Z) (error_msg : option string) : outcome rmw_count_result :=
  match node with
  | None =>
    Ok (mk_rmw_count_result RMW_RET_ERROR count (Some "null node handle") node)
  | Some node_ =>
    if decide (implementation_identifier node_ ≠ identifier)
    then Ok (mk_rmw_count_result RMW_RET_ERROR count
               (Some "node handle not from this implementation") node)
    else
      let topic_fqdns := build_topic_fqdns topic_name in
      let impl := data node_ in
      match countParticipants topic_fqdns (reader_topic_cache impl) with
      | Ok (result, cache) =>
        Ok (mk_rmw_count_result RMW_RET_OK result error_msg
              (Some (mk_rmw_node_t (implementation_identifier node_)
                       (mkCustomParticipantInfo (writer_topic_cache impl) cache))))
      | Undefined => Undefined
      end
  end.

End RmwCount.

(** ** Concrete indexes

    Participants are named by numbers and an instance handle is the GUID it
    stands for. *)

#[global] Instance handle_guid : Handle2GUID N N := λ h, h.

Definition P1 : N := 1%N.
Definition P2 : N := 2%N.

(** The specification's scenario after its first two registrations. *)
Definition chatter : TopicCache (GUID_t := N) :=
  mkTopicCache
    {[ "/chatter" := ["std_msgs/String"; "std_msgs/String"] ]}
    {[ P1 := {[ "/chatter" := ["std_msgs/String"] ]};
       P2 := {[ "/chatter" := ["std_msgs/String"] ]} ]}.

(** One participant, one topic, one type. *)
Definition one_type : TopicCache (GUID_t := N) :=
  mkTopicCache {[ "t" := ["A"] ]} {[ P1 := {[ "t" := ["A"] ]} ]}.

(** One participant with two types on one topic. *)
Definition two_types : TopicCache (GUID_t := N) :=
  mkTopicCache {[ "t" := ["A"; "B"] ]} {[ P1 := {[ "t" := ["A"; "B"] ]} ]}.

(** Two participants, each with its own type on the same topic. *)
Definition two_participants : TopicCache (GUID_t := N) :=
  mkTopicCache
    {[ "t" := ["A"; "B"] ]}
    {[ P1 := {[ "t" := ["A"] ]}; P2 := {[ "t" := ["B"] ]} ]}.

(** [P1] registered "A"; [P2], which held nothing, withdrew "A" and then
    registered "B". *)
Definition ghost : TopicCache (GUID_t := N) :=
  mkTopicCache
    {[ "t" := ["B"] ]}
    {[ P1 := {[ "t" := ["A"] ]}; P2 := {[ "t" := ["B"] ]} ]}.

(** [P1] registered "A"; [P2], which held nothing, withdrew "A". *)
Definition orphan : TopicCache (GUID_t := N) :=
  mkTopicCache ∅ {[ P1 := {[ "t" := ["A"] ]} ]}.

(** [chatter] after [P1] has withdrawn. *)
Definition chatter_P2 : TopicCache (GUID_t := N) :=
  mkTopicCache
    {[ "/chatter" := ["std_msgs/String"] ]}
    {[ P2 := {[ "/chatter" := ["std_msgs/String"] ]} ]}.

(** [two_participants] after [P1] has withdrawn "A". *)
Definition only_P2 : TopicCache (GUID_t := N) :=
  mkTopicCache {[ "t" := ["B"] ]} {[ P2 := {[ "t" := ["B"] ]} ]}.

(** One participant that registered "A", "B" and "A" again on one topic,
    and the index after it has withdrawn "A" once. *)
Definition repeated : TopicCache (GUID_t := N) :=
  mkTopicCache {[ "t" := ["A"; "B"; "A"] ]}
               {[ P1 := {[ "t" := ["A"; "B"; "A"] ]} ]}.

Definition repeated_once : TopicCache (GUID_t := N) :=
  mkTopicCache {[ "t" := ["B"; "A"] ]} {[ P1 := {[ "t" := ["B"; "A"] ]} ]}.

(** Prefixes as ROS 2 has them for topics, service requests and service
    responses. *)
#[global] Instance ros_prefixes : RosPrefixes := ["rt"; "rq"; "rr"].

(** Two implementation identifiers, by address. *)
Definition this_rmw : N := 1%N.
Definition other_rmw : N := 2%N.

(** A node that has discovered two writers and one reader on the topic that
    ROS calls "/chatter". *)
Definition chatter_writers : TopicCache (GUID_t := N) :=
  mkTopicCache
    {[ "rt/chatter" := ["std_msgs/String"; "std_msgs/String"] ]}
    {[ P1 := {[ "rt/chatter" := ["std_msgs/String"] ]};
       P2 := {[ "rt/chatter" := ["std_msgs/String"] ]} ]}.

Definition chatter_readers : TopicCache (GUID_t := N) :=
  mkTopicCache
    {[ "rt/chatter" := ["std_msgs/String"] ]}
    {[ P1 := {[ "rt/chatter" := ["std_msgs/String"] ]} ]}.

Definition chatter_node : rmw_node_t (GUID_t := N) (Identifier := N) :=
  mk_rmw_node_t this_rmw
    (mkCustomParticipantInfo chatter_writers chatter_readers).

(** [chatter_writers] after a third writer has been discovered. *)
Definition chatter_writers_3 : TopicCache (GUID_t := N) :=
  mkTopicCache
    {[ "rt/chatter" :=
         ["std_msgs/String"; "std_msgs/String"; "std_msgs/String"] ]}
    {[ P1 := {[ "rt/chatter" := ["std_msgs/String"; "std_msgs/String"] ]};
       P2 := {[ "rt/chatter" := ["std_msgs/String"] ]} ]}.

(** * Properties *)

Section Properties.

Context {GUID_t : Type} `{Countable GUID_t}.
Context {InstanceHandle_t : Type} `{Handle2GUID InstanceHandle_t GUID_t}.

Abbreviation ParticipantTopicMap := (gmap GUID_t (gmap string (list string))).

Implicit Types c : TopicCache (GUID_t := GUID_t).
Implicit Types h : InstanceHandle_t.
Implicit Types t ty : string.

(** ** Facts about the standard-library pieces *)

Lemma find_le (v : list string) (x : string) : Std.find v x ≤ length v.
Proof. induction v as [|y v IH]; simpl; [lia|]. case_decide; lia. Qed.

Lemma find_lt_elem_of (v : list string) (x : string) :
  Std.find v x < length v ↔ x ∈ v.
Proof.
  induction v as [|y v IH]; simpl.
  - split; [lia | inversion 1].
  - case_decide as Hy.
    + subst. split; [intros _; left | lia].
    + rewrite elem_of_cons, <- IH. split; [intros; right; lia | intros [?|?]; [congruence | lia]].
Qed.

(** Erasing what [std::find] returns is defined exactly when the value
    occurs, and then removes its first occurrence. *)
Lemma erase_find_Some (v : list string) (x : string) :
  x ∈ v →
  ∃ v1 v2, v = v1 ++ x :: v2 ∧ (x ∉ v1) ∧
           Std.erase v (Std.find v x) = Some (v1 ++ v2).
Proof.
  induction v as [|y v IH]; [inversion 1|].
  intros Hin. unfold Std.erase. simpl. destruct (decide (y = x)) as [->|Hy].
  - exists [], v. split_and!; [done | inversion 1 |].
    case_decide; [done | simpl in *; lia].
  - apply elem_of_cons in Hin as [?|Hin]; [congruence|].
    destruct (IH Hin) as (v1 & v2 & -> & Hv1 & He).
    exists (y :: v1), v2. split_and!; [done | |].
    + rewrite elem_of_cons. intros [?|?]; [congruence | done].
    + unfold Std.erase in He. case_decide as Hlt; [|done].
      case_decide; [|lia]. simpl. injection He as He. by rewrite He.
Qed.

Lemma erase_find_None (v : list string) (x : string) :
  x ∉ v → Std.erase v (Std.find v x) = None.
Proof.
  intros Hx. unfold Std.erase. case_decide as Hlt; [|done].
  by apply find_lt_elem_of in Hlt.
Qed.

Lemma erase_find_is_Some (v : list string) (x : string) :
  is_Some (Std.erase v (Std.find v x)) ↔ x ∈ v.
Proof.
  split.
  - intros [v' Hv']. destruct (decide (x ∈ v)) as [|Hn]; [done|].
    rewrite (erase_find_None _ _ Hn) in Hv'. done.
  - intros (?&?&?&?&->)%erase_find_Some. eauto.
Qed.

(** ** The member functions in closed form *)

Lemma addTopic_eq h t ty c :
  addTopic h t ty c =
  Ok (true,
      mkTopicCache
        (<[t := default [] (topic_to_types_ c !! t) ++ [ty]]> (topic_to_types_ c))
        (let guid := iHandle2GUID h in
         let topics := default ∅ (participant_to_topics_ c !! guid) in
         <[guid := <[t := default [] (topics !! t) ++ [ty]]> topics]>
           (participant_to_topics_ c))).
Proof.
  destruct c as [ttt ptt].
  unfold addTopic, mbind, M_bind, mret, M_ret, modify_topic_to_types,
    modify_participant_to_topics, Std.at_key, Std.push_back,
    initializeTopic, initializeParticipantMap. simpl.
  do 3 f_equal.
  - destruct (ttt !! t) as [v|] eqn:Ht; simpl.
    + by rewrite Ht.
    + by rewrite lookup_insert_eq, insert_insert_eq.
  - destruct (ptt !! iHandle2GUID h) as [topics|] eqn:Hg; simpl.
    + rewrite Hg. simpl. rewrite lookup_insert_eq. simpl.
      rewrite !insert_insert_eq.
      destruct (topics !! t) as [v|] eqn:Ht; rewrite ?Ht; simpl; [done|].
      by rewrite lookup_insert_eq, insert_insert_eq.
    + rewrite !lookup_insert_eq. simpl. rewrite !lookup_empty.
      rewrite lookup_insert_eq. simpl. by rewrite !insert_insert_eq.
Qed.

Lemma removeTopic_eq h t ty c :
  removeTopic h t ty c =
  match topic_to_types_ c !! t with
  | None => Ok (false, c)
  | Some gv =>
    match Std.erase gv (Std.find gv ty) with
    | None => Undefined
    | Some gv' =>
      let ttt' := settle t gv' (topic_to_types_ c) in
      let guid := iHandle2GUID h in
      match participant_to_topics_ c !! guid with
      | None => Ok (true, mkTopicCache ttt' (participant_to_topics_ c))
      | Some topics =>
        match topics !! t with
        | None => Ok (true, mkTopicCache ttt' (participant_to_topics_ c))
        | Some lv =>
          match Std.erase lv (Std.find lv ty) with
          | None => Undefined
          | Some lv' =>
            Ok (true, mkTopicCache ttt'
                  (settle_participant guid (settle t lv' topics)
                     (participant_to_topics_ c)))
          end
        end
      end
    end
  end.
Proof.
  destruct c as [ttt ptt].
  unfold removeTopic, mbind, M_bind, mret, M_ret, get_topic_to_types,
    get_participant_to_topics, defined, when, modify_topic_to_types,
    modify_participant_to_topics, Std.at_key, settle, settle_participant. simpl.
  destruct (ttt !! t) as [gv|] eqn:Ht; [|done]. simpl.
  destruct (Std.erase gv (Std.find gv ty)) as [gv'|]; [|done].
  destruct (Std.empty gv'); simpl; rewrite ?delete_insert_eq;
    (destruct (ptt !! iHandle2GUID h) as [topics|] eqn:Hg; simpl; [|done]);
    (destruct (topics !! t) as [lv|] eqn:Hl; simpl; [|done]);
    rewrite ?Hl; simpl;
    (destruct (Std.erase lv (Std.find lv ty)) as [lv'|]; simpl; [|done]);
    rewrite ?Hg; simpl;
    destruct (Std.empty lv'); simpl;
    rewrite ?lookup_insert_eq; simpl;
    rewrite ?delete_insert_eq, ?insert_insert_eq, ?lookup_insert_eq; simpl;
    match goal with |- context [map_is_empty ?m] => destruct (map_is_empty m) end;
    simpl; by rewrite ?delete_insert_eq.
Qed.

(** ** Multisets of types *)

Lemma types_of_empty t : types_of ∅ t = ∅.
Proof. unfold types_of. by rewrite lookup_empty. Qed.

Lemma types_of_insert (m : NameToNamesMap) t v t' :
  types_of (<[t := v]> m) t' =
  if decide (t = t') then list_to_set_disj v else types_of m t'.
Proof.
  unfold types_of. case_decide as Ht.
  - subst. by rewrite lookup_insert_eq.
  - by rewrite lookup_insert_ne.
Qed.

Lemma types_of_delete (m : NameToNamesMap) t t' :
  types_of (delete t m) t' = if decide (t = t') then ∅ else types_of m t'.
Proof.
  unfold types_of. case_decide as Ht.
  - subst. by rewrite lookup_delete_eq.
  - by rewrite lookup_delete_ne.
Qed.

Lemma types_of_settle (m : NameToNamesMap) t v t' :
  types_of (settle t v m) t' =
  if decide (t = t') then list_to_set_disj v else types_of m t'.
Proof.
  unfold settle. destruct v as [|x v]; simpl.
  - rewrite types_of_delete. by case_decide.
  - apply types_of_insert.
Qed.

Lemma erase_find_types (v v' : list string) ty :
  Std.erase v (Std.find v ty) = Some v' →
  ty ∈ v ∧
  list_to_set_disj v =@{gmultiset string} {[+ ty +]} ⊎ list_to_set_disj v'.
Proof.
  intros He. assert (Hin : ty ∈ v) by (apply erase_find_is_Some; eauto).
  split; [done|].
  destruct (erase_find_Some _ _ Hin) as (v1 & v2 & -> & _ & He').
  rewrite He in He'. injection He' as ->. clear.
  rewrite !list_to_set_disj_app, list_to_set_disj_cons. multiset_solver.
Qed.

Lemma sum_types_empty t : sum_types (∅ : ParticipantTopicMap) t = ∅.
Proof. unfold sum_types. by rewrite map_fold_empty. Qed.

Lemma sum_types_insert_fresh (ptt : ParticipantTopicMap) g topics t :
  ptt !! g = None →
  sum_types (<[g := topics]> ptt) t = types_of topics t ⊎ sum_types ptt t.
Proof.
  intros Hg. unfold sum_types. rewrite map_fold_insert_L; [done| |done].
  intros. multiset_solver.
Qed.

Lemma sum_types_lookup (ptt : ParticipantTopicMap) g topics t :
  ptt !! g = Some topics →
  sum_types ptt t = types_of topics t ⊎ sum_types (delete g ptt) t.
Proof.
  intros Hg. rewrite <- (insert_delete_id ptt g topics Hg) at 1.
  apply sum_types_insert_fresh, lookup_delete_eq.
Qed.

(** How the union changes when one participant's topic map is replaced:
    stated without subtraction. *)
Lemma sum_types_insert (ptt : ParticipantTopicMap) g topics t :
  sum_types (<[g := topics]> ptt) t ⊎ types_of (default ∅ (ptt !! g)) t =
  types_of topics t ⊎ sum_types ptt t.
Proof.
  destruct (ptt !! g) as [old|] eqn:Hg; simpl.
  - rewrite (sum_types_lookup ptt g old t Hg).
    rewrite <- insert_delete_eq.
    rewrite sum_types_insert_fresh by apply lookup_delete_eq.
    multiset_solver.
  - rewrite sum_types_insert_fresh by done.
    rewrite types_of_empty. multiset_solver.
Qed.

Lemma sum_types_delete (ptt : ParticipantTopicMap) g t :
  sum_types (delete g ptt) t ⊎ types_of (default ∅ (ptt !! g)) t =
  sum_types ptt t.
Proof.
  destruct (ptt !! g) as [old|] eqn:Hg; simpl.
  - rewrite (sum_types_lookup ptt g old t Hg). multiset_solver.
  - rewrite delete_id by done. rewrite types_of_empty. multiset_solver.
Qed.

Lemma sum_types_settle_participant (ptt : ParticipantTopicMap) g topics t :
  sum_types (settle_participant g topics ptt) t
    ⊎ types_of (default ∅ (ptt !! g)) t =
  types_of topics t ⊎ sum_types ptt t.
Proof.
  unfold settle_participant, map_is_empty. case_bool_decide as He.
  - subst. rewrite sum_types_delete, types_of_empty. multiset_solver.
  - apply sum_types_insert.
Qed.

Lemma local_types_subseteq (ptt : ParticipantTopicMap) g t :
  types_of (default ∅ (ptt !! g)) t ⊆ sum_types ptt t.
Proof. rewrite <- (sum_types_delete ptt g t). multiset_solver. Qed.

(** ** What one call does to the invariants *)

Lemma types_nonempty_insert (m : NameToNamesMap) t v :
  v ≠ [] → types_nonempty m → types_nonempty (<[t := v]> m).
Proof.
  intros Hv Hm t' v'. destruct (decide (t = t')) as [->|Hne].
  - rewrite lookup_insert_eq. congruence.
  - rewrite lookup_insert_ne by done. apply Hm.
Qed.

Lemma types_nonempty_delete (m : NameToNamesMap) t :
  types_nonempty m → types_nonempty (delete t m).
Proof.
  intros Hm t' v'. destruct (decide (t = t')) as [->|Hne].
  - by rewrite lookup_delete_eq.
  - rewrite lookup_delete_ne by done. apply Hm.
Qed.

Lemma types_nonempty_settle (m : NameToNamesMap) t v :
  types_nonempty m → types_nonempty (settle t v m).
Proof.
  intros Hm. unfold settle. destruct v; simpl.
  - by apply types_nonempty_delete.
  - by apply types_nonempty_insert.
Qed.

Lemma push_back_nonempty (v : list string) ty : v ++ [ty] ≠ [].
Proof. by destruct v. Qed.

Lemma addTopic_no_empty h t ty c r c' :
  no_empty_collections c → addTopic h t ty c = Ok (r, c') →
  no_empty_collections c'.
Proof.
  intros [Hg Hl]. rewrite addTopic_eq. intros [= <- <-]. split; simpl.
  - apply types_nonempty_insert; [apply push_back_nonempty | done].
  - intros g topics. destruct (decide (iHandle2GUID h = g)) as [<-|Hne].
    + rewrite lookup_insert_eq. intros [= <-]. split.
      * apply insert_non_empty.
      * apply types_nonempty_insert; [apply push_back_nonempty|].
        destruct (participant_to_topics_ c !! iHandle2GUID h) as [old|] eqn:Ho;
          simpl; [by apply (Hl _ _ Ho) | by intros ??; rewrite lookup_empty].
    + rewrite lookup_insert_ne by done. apply Hl.
Qed.

Lemma removeTopic_no_empty h t ty c r c' :
  no_empty_collections c → removeTopic h t ty c = Ok (r, c') →
  no_empty_collections c'.
Proof.
  intros [Hg Hl]. rewrite removeTopic_eq.
  destruct (topic_to_types_ c !! t) as [gv|]; [|by intros [= <- <-]].
  destruct (Std.erase gv (Std.find gv ty)) as [gv'|]; [|done]. simpl.
  destruct (participant_to_topics_ c !! iHandle2GUID h) as [topics|] eqn:Hp;
    [|intros [= <- <-]; split; [by apply types_nonempty_settle | done]].
  destruct (topics !! t) as [lv|];
    [|intros [= <- <-]; split; [by apply types_nonempty_settle | done]].
  destruct (Std.erase lv (Std.find lv ty)) as [lv'|]; [|done].
  intros [= <- <-]. split; simpl; [by apply types_nonempty_settle|].
  intros g topics'. unfold settle_participant, map_is_empty.
  case_bool_decide as He.
  - destruct (decide (iHandle2GUID h = g)) as [<-|Hne].
    + by rewrite lookup_delete_eq.
    + rewrite lookup_delete_ne by done. apply Hl.
  - destruct (decide (iHandle2GUID h = g)) as [<-|Hne].
    + rewrite lookup_insert_eq. intros [= <-]. split; [done|].
      apply types_nonempty_settle. by apply (Hl _ _ Hp).
    + rewrite lookup_insert_ne by done. apply Hl.
Qed.

Lemma empty_no_empty :
  no_empty_collections (empty_cache (GUID_t := GUID_t)).
Proof. split; simpl; [intros ??|intros ??]; by rewrite lookup_empty. Qed.

Lemma reachable_no_empty c : reachable c → no_empty_collections c.
Proof.
  induction 1 as [|c op r c' _ IH Hstep]; [apply empty_no_empty|].
  destruct op; simpl in Hstep;
    eauto using addTopic_no_empty, removeTopic_no_empty.
Qed.

Lemma addTopic_types h t ty c r c' t' :
  addTopic h t ty c = Ok (r, c') →
  global_types c' t' = registration t ty t' ⊎ global_types c t' ∧
  participants_types c' t' = registration t ty t' ⊎ participants_types c t'.
Proof.
  rewrite addTopic_eq. intros [= <- <-].
  unfold global_types, participants_types, registration. simpl. split.
  - rewrite types_of_insert. case_decide; [subst|multiset_solver].
    rewrite list_to_set_disj_app. unfold types_of. multiset_solver.
  - pose proof (sum_types_insert (participant_to_topics_ c) (iHandle2GUID h)
      (<[t:=default [] (default ∅ (participant_to_topics_ c !! iHandle2GUID h) !! t) ++ [ty]]>
         (default ∅ (participant_to_topics_ c !! iHandle2GUID h))) t') as Hs.
    rewrite types_of_insert in Hs. case_decide; [subst|multiset_solver].
    rewrite list_to_set_disj_app in Hs. unfold types_of in Hs.
    simpl in Hs. multiset_solver.
Qed.

Lemma removeTopic_rejected h t ty c c' :
  removeTopic h t ty c = Ok (false, c') →
  topic_to_types_ c !! t = None ∧ c' = c.
Proof.
  rewrite removeTopic_eq.
  destruct (topic_to_types_ c !! t) as [gv|]; [|by intros [= <-]].
  destruct (Std.erase gv (Std.find gv ty)); [|done]. simpl.
  repeat case_match; done.
Qed.

Lemma removeTopic_types_global h t ty c c' t' :
  removeTopic h t ty c = Ok (true, c') →
  global_types c t' = registration t ty t' ⊎ global_types c' t'.
Proof.
  rewrite removeTopic_eq.
  destruct (topic_to_types_ c !! t) as [gv|] eqn:Hgv; [|done].
  destruct (Std.erase gv (Std.find gv ty)) as [gv'|] eqn:He; [|done]. simpl.
  apply erase_find_types in He as [_ He].
  assert (global_types c t' =
          registration t ty t' ⊎ types_of (settle t gv' (topic_to_types_ c)) t') as Hgoal.
  { rewrite types_of_settle. unfold global_types, registration.
    case_decide; [subst|multiset_solver].
    unfold types_of. rewrite Hgv. simpl. done. }
  repeat case_match; try done; by intros [= <-].
Qed.

(** The participant side after a removal that went through: either
    untouched, or one registration smaller. *)
Lemma removeTopic_types_local h t ty c c' t' :
  removeTopic h t ty c = Ok (true, c') →
  participants_types c' t' = participants_types c t' ∨
  participants_types c t' = registration t ty t' ⊎ participants_types c' t'.
Proof.
  rewrite removeTopic_eq.
  destruct (topic_to_types_ c !! t) as [gv|] eqn:Hgv; [|done].
  destruct (Std.erase gv (Std.find gv ty)) as [gv'|]; [|done]. simpl.
  destruct (participant_to_topics_ c !! iHandle2GUID h) as [topics|] eqn:Hp;
    [|intros [= <-]; by left].
  destruct (topics !! t) as [lv|] eqn:Hlv; [|intros [= <-]; by left].
  destruct (Std.erase lv (Std.find lv ty)) as [lv'|] eqn:He; [|done].
  intros [= <-]. right. unfold participants_types. simpl.
  apply erase_find_types in He as [_ He].
  pose proof (sum_types_settle_participant (participant_to_topics_ c)
                (iHandle2GUID h) (settle t lv' topics) t') as Hs.
  rewrite Hp in Hs. simpl in Hs. rewrite types_of_settle in Hs.
  unfold registration. case_decide; [subst|multiset_solver].
  unfold types_of in Hs at 1. rewrite Hlv in Hs. simpl in Hs.
  multiset_solver.
Qed.

(** A participant that withdraws what it holds, in a consistent index:
    both erasures are defined and both sides lose the registration. *)
Lemma removeTopic_held h t ty c :
  (∀ g t', local_types c g t' ⊆ global_types c t') →
  holds c h t ty →
  ∃ c', removeTopic h t ty c = Ok (true, c') ∧
    ∀ t', global_types c t' = registration t ty t' ⊎ global_types c' t' ∧
          participants_types c t' =
            registration t ty t' ⊎ participants_types c' t'.
Proof.
  intros Hsub Hin.
  assert (Hex : ∃ c', removeTopic h t ty c = Ok (true, c') ∧
            ∀ t', participants_types c t' =
                    registration t ty t' ⊎ participants_types c' t').
  { specialize (Hsub (iHandle2GUID h) t).
    unfold holds in Hin. unfold local_types, global_types, types_of in Hsub.
    rewrite removeTopic_eq.
    destruct (participant_to_topics_ c !! iHandle2GUID h) as [topics|] eqn:Hp;
      simpl in *; [|rewrite lookup_empty in Hin; simpl in Hin; by inversion Hin].
    destruct (topics !! t) as [lv|] eqn:Hlv; simpl in *; [|by inversion Hin].
    assert (Hgin : ty ∈ default [] (topic_to_types_ c !! t)).
    { apply elem_of_list_to_set_disj.
      apply (gmultiset_elem_of_subseteq _ _ _ (proj2 (elem_of_list_to_set_disj _ _) Hin) Hsub). }
    destruct (topic_to_types_ c !! t) as [gv|] eqn:Hgv; simpl in Hgin;
      [|by inversion Hgin].
    apply erase_find_is_Some in Hgin as [gv' ->].
    pose proof Hin as [lv' He]%erase_find_is_Some. simpl.
    rewrite Hp, Hlv, He.
    eexists. split; [done|]. intros t'. unfold participants_types. simpl.
    apply erase_find_types in He as [_ He].
    pose proof (sum_types_settle_participant (participant_to_topics_ c)
                  (iHandle2GUID h) (settle t lv' topics) t') as Hs.
    rewrite Hp in Hs. simpl in Hs. rewrite types_of_settle in Hs.
    unfold registration. case_decide; [subst|multiset_solver].
    unfold types_of in Hs at 1. rewrite Hlv in Hs. simpl in Hs.
    multiset_solver. }
  destruct Hex as (c' & Hrm & Hloc). exists c'. split; [done|].
  intros t'. split; [by eapply removeTopic_types_global | done].
Qed.

Lemma elem_of_sum_types (ptt : ParticipantTopicMap) t x :
  x ∈ sum_types ptt t ↔
  ∃ g topics, ptt !! g = Some topics ∧ x ∈ types_of topics t.
Proof.
  induction ptt as [|g topics ptt Hg IH] using map_ind.
  - rewrite sum_types_empty. split; [multiset_solver|].
    intros (g & topics & Hl & _). by rewrite lookup_empty in Hl.
  - rewrite sum_types_insert_fresh by done.
    rewrite gmultiset_elem_of_disj_union, IH. split.
    + intros [Hx|(g' & topics' & Hl & Hx)].
      * exists g, topics. by rewrite lookup_insert_eq.
      * exists g', topics'. split; [|done].
        rewrite lookup_insert_ne; [done|]. intros ->. congruence.
    + intros (g' & topics' & Hl & Hx).
      destruct (decide (g = g')) as [<-|Hne].
      * rewrite lookup_insert_eq in Hl. injection Hl as ->. by left.
      * rewrite lookup_insert_ne in Hl by done. right. eauto.
Qed.

(** In every reachable state the global list of a topic is covered by
    what the participants hold on it.  The converse inclusion is lost
    by a removal from a participant that does not hold the type. *)
Lemma reachable_global_included c :
  reachable c → ∀ t, global_types c t ⊆ participants_types c t.
Proof.
  induction 1 as [|c op r c' _ IH Hstep]; intros t'.
  - unfold global_types, participants_types. simpl.
    rewrite sum_types_empty, types_of_empty. done.
  - specialize (IH t'). destruct op as [h t ty|h t ty]; simpl in Hstep.
    + destruct (addTopic_types _ _ _ _ _ _ t' Hstep) as [-> ->].
      multiset_solver.
    + destruct r.
      * pose proof (removeTopic_types_global _ _ _ _ _ t' Hstep) as Hg.
        destruct (removeTopic_types_local _ _ _ _ _ t' Hstep) as [Hl|Hl];
          multiset_solver.
      * apply removeTopic_rejected in Hstep as [_ ->]. done.
Qed.

Lemma matched_sum_eq c :
  matched_reachable c → ∀ t, participants_types c t = global_types c t.
Proof.
  induction 1 as [|c h t ty r c' _ IH Hstep|c h t ty r c' _ IH Hheld Hstep];
    intros t'.
  - unfold global_types, participants_types. simpl.
    by rewrite sum_types_empty, types_of_empty.
  - destruct (addTopic_types _ _ _ _ _ _ t' Hstep) as [-> ->].
    by rewrite IH.
  - destruct (removeTopic_held h t ty c) as (c'' & Hrm & Heq); [|done|].
    { intros g t''. unfold local_types. rewrite <- IH.
      apply local_types_subseteq. }
    rewrite Hrm in Hstep. injection Hstep as <- <-.
    destruct (Heq t') as [Hg Hl]. specialize (IH t').
    clear - Hg Hl IH. multiset_solver.
Qed.

(** ** [move_to_back] and the erasure that follows a [push_back] *)

Lemma move_to_back_absent ty (v : list string) :
  ty ∉ v → move_to_back ty v = v.
Proof.
  induction v as [|y v IH]; [done|]. rewrite not_elem_of_cons.
  intros [Hne Hv]. simpl. rewrite decide_False by done. by rewrite IH.
Qed.

Lemma move_to_back_perm ty (v : list string) : move_to_back ty v ≡ₚ v.
Proof.
  induction v as [|y v IH]; [done|]. simpl. case_decide.
  - subst. by rewrite <- Permutation_cons_append.
  - by rewrite IH.
Qed.

Lemma move_to_back_nonempty ty (v : list string) :
  v ≠ [] → move_to_back ty v ≠ [].
Proof.
  intros Hv Hm. pose proof (move_to_back_perm ty v) as Hp.
  rewrite Hm in Hp. by apply Permutation_nil_l in Hp.
Qed.

Lemma erase_head (y : string) (v : list string) :
  Std.erase (y :: v) 0 = Some v.
Proof. unfold Std.erase. case_decide; [done | simpl in *; lia]. Qed.

Lemma erase_tail (y : string) (v : list string) n :
  Std.erase (y :: v) (S n) = (y ::.) <$> Std.erase v n.
Proof. unfold Std.erase. simpl. repeat case_decide; (done || lia). Qed.

Lemma erase_find_push_back (v : list string) ty :
  Std.erase (Std.push_back ty v) (Std.find (Std.push_back ty v) ty) =
  Some (move_to_back ty v).
Proof.
  unfold Std.push_back. induction v as [|y v IH]; simpl.
  - destruct (decide (ty = ty)); [apply erase_head | done].
  - destruct (decide (y = ty)) as [->|Hne]; [apply erase_head|].
    by rewrite erase_tail, IH.
Qed.

Lemma insert_as_alter {K : Type} `{Countable K} {V : Type}
    (f : V → V) (k : K) (x : V) (m : gmap K V) :
  m !! k = Some x → <[k := f x]> m = alter f k m.
Proof.
  intros Hk. rewrite <- (insert_id m k x Hk) at 2.
  by rewrite alter_insert_eq.
Qed.

(** A topic entry after [push_back] and the erasure of the first
    occurrence. *)
Lemma settle_after_push_back (m : NameToNamesMap) t ty :
  types_nonempty m →
  settle t (move_to_back ty (default [] (m !! t)))
    (<[t := default [] (m !! t) ++ [ty]]> m) =
  alter (move_to_back ty) t m.
Proof.
  intros Hm. unfold settle. destruct (m !! t) as [v|] eqn:Hv; simpl.
  - pose proof (move_to_back_nonempty ty v (Hm _ _ Hv)) as Hne.
    destruct (move_to_back ty v) as [|x w] eqn:Hw; [done|]. simpl.
    rewrite insert_insert_eq, <- Hw. by apply insert_as_alter.
  - rewrite delete_insert_eq, delete_id by done.
    by rewrite alter_id' by done.
Qed.

Lemma alter_empty_iff (f : list string → list string) t (m : NameToNamesMap) :
  alter f t m = ∅ ↔ m = ∅.
Proof.
  rewrite !map_empty. by setoid_rewrite lookup_alter_None.
Qed.

Lemma SIZE_MOD_pos : (0 < Std.SIZE_MOD)%Z.
Proof. reflexivity. Qed.

Lemma count_loop_spec names acc c :
  (0 ≤ acc < Std.SIZE_MOD)%Z →
  count_loop names acc c =
  Ok (((acc + registrations c names) mod Std.SIZE_MOD)%Z, c).
Proof.
  revert acc. unfold registrations.
  induction names as [|name names IH]; intros acc Hacc; simpl.
  - unfold mret, M_ret. by rewrite Z.add_0_r, Z.mod_small.
  - unfold mbind, M_bind, get_topic_to_types. simpl.
    destruct (topic_to_types_ c !! name) as [v|]; simpl.
    + rewrite IH by (apply Z.mod_pos_bound; done).
      unfold Std.size_add. rewrite Zplus_mod_idemp_l.
      do 3 f_equal. symmetry. apply Z.add_assoc.
    + by apply IH.
Qed.

Lemma run_reachable ops c c' :
  reachable c → run ops c = Ok c' → reachable c'.
Proof.
  revert c. induction ops as [|op ops IH]; simpl; intros c Hc.
  - by intros [= <-].
  - destruct (exec op c) as [[r c1]|] eqn:Hop; [|done].
    apply IH. by eapply reachable_step.
Qed.

Lemma run_matched_reachable ops c c' :
  matched_reachable c → run_matched ops c = Ok c' → matched_reachable c'.
Proof.
  revert c. induction ops as [|op ops IH]; simpl; intros c Hc.
  - by intros [= <-].
  - destruct op as [h t ty|h t ty]; unfold exec.
    + destruct (addTopic h t ty c) as [[r c1]|] eqn:Hop; [|done].
      apply IH. exact (matched_add c h t ty r c1 Hc Hop).
    + case_bool_decide as Hheld; [|done].
      destruct (removeTopic h t ty c) as [[r c1]|] eqn:Hop; [|done].
      apply IH. exact (matched_remove c h t ty r c1 Hc Hheld Hop).
Qed.

(** Whenever [removeTopic] returns, it returned true exactly when the
    global list of the topic lost one occurrence of the type, and false
    exactly when the topic was not a key; what happened on the
    participant's side does not enter. *)
Lemma removeTopic_returns h t ty c r c' :
  removeTopic h t ty c = Ok (r, c') →
  (r = true ↔ global_types c t = {[+ ty +]} ⊎ global_types c' t) ∧
  (r = false ↔ topic_to_types_ c !! t = None).
Proof.
  intros Hrm. destruct r.
  - pose proof (removeTopic_types_global _ _ _ _ _ t Hrm) as Hg.
    unfold registration in Hg. case_decide; [|done].
    split; [done|]. split; [done|]. intros Ht.
    rewrite removeTopic_eq, Ht in Hrm. by injection Hrm.
  - apply removeTopic_rejected in Hrm as [Ht ->]. split; [|done].
    split; [done|]. intros Heq. exfalso.
    assert (ty ∈ global_types c t) as Hin by (rewrite Heq; multiset_solver).
    unfold global_types, types_of in Hin. rewrite Ht in Hin.
    multiset_solver.
Qed.

(** The calls on which [removeTopic] erases [end()]: the topic is a key
    of the global map and the type is missing from its global list, or
    from the list that the participant has for the topic. *)
Lemma removeTopic_undefined_iff h t ty c :
  removeTopic h t ty c = Undefined ↔
  ∃ gv, topic_to_types_ c !! t = Some gv ∧
        (ty ∉ gv ∨
         ∃ topics lv,
           participant_to_topics_ c !! iHandle2GUID h = Some topics ∧
           topics !! t = Some lv ∧ ty ∉ lv).
Proof.
  rewrite removeTopic_eq. cbv zeta.
  destruct (topic_to_types_ c !! t) as [gv|].
  2: { split; [done|]. by intros (gv & Hgv & _). }
  destruct (decide (ty ∈ gv)) as [Hin|Hnin].
  2: { rewrite (erase_find_None _ _ Hnin). split; [|done]. intros _.
       exists gv. eauto. }
  pose proof Hin as [gv' ->]%erase_find_is_Some.
  assert (Hiff : (∃ gv0, Some gv = Some gv0 ∧
            (ty ∉ gv0 ∨ ∃ topics lv,
               participant_to_topics_ c !! iHandle2GUID h = Some topics ∧
               topics !! t = Some lv ∧ ty ∉ lv)) ↔
          ∃ topics lv,
            participant_to_topics_ c !! iHandle2GUID h = Some topics ∧
            topics !! t = Some lv ∧ ty ∉ lv).
  { split; [|by exists gv; eauto].
    intros (gv0 & [= <-] & [Hn|Hl]); [done | exact Hl]. }
  rewrite Hiff. clear Hiff.
  destruct (participant_to_topics_ c !! iHandle2GUID h) as [topics|].
  2: { split; [done|]. by intros (topics & lv & Hp & _). }
  destruct (topics !! t) as [lv|] eqn:Hlv.
  2: { split; [done|]. intros (topics0 & lv & [= <-] & Hl & _). congruence. }
  destruct (decide (ty ∈ lv)) as [Hl|Hnl].
  - pose proof Hl as [lv' ->]%erase_find_is_Some. split; [done|].
    intros (topics0 & lv0 & [= <-] & Hl0 & Hn). congruence.
  - rewrite (erase_find_None _ _ Hnl). split; [|done]. intros _. eauto.
Qed.

(** [countParticipants] without a bound on the sum: [size_t] wraps. *)
Lemma countParticipants_wraps c names :
  countParticipants names c =
  Ok ((registrations c names mod Std.SIZE_MOD)%Z, c).
Proof.
  unfold countParticipants.
  rewrite count_loop_spec by (pose proof SIZE_MOD_pos; lia).
  by rewrite Z.add_0_l.
Qed.

(** Every [addTopic] is one more registration to count, whether or not the
    same participant, topic and type were registered before. *)
Lemma registrations_addTopic h t ty c r c' :
  addTopic h t ty c = Ok (r, c') →
  registrations c' [t] = (registrations c [t] + 1)%Z.
Proof.
  rewrite addTopic_eq. intros [= <- <-]. unfold registrations. simpl.
  rewrite lookup_insert_eq.
  destruct (topic_to_types_ c !! t) as [v|]; simpl;
    rewrite ?length_app; simpl; lia.
Qed.

Lemma bind_Ok {A B} (m : M A) (f : A → M B) c a c1 :
  m c = Ok (a, c1) → (m ≫= f) c = f a c1.
Proof. intros Hm. unfold mbind, M_bind. by rewrite Hm. Qed.

(** ** The properties of the specification *)

(** C4: when [topicName] is not a key of the global map, [removeTopic]
    returns false and leaves both maps exactly as they were. *)
Theorem removeTopic_absent_topic h t ty c :
  topic_to_types_ c !! t = None →
  removeTopic h t ty c = Ok (false, c).
Proof. intros Ht. rewrite removeTopic_eq. by rewrite Ht. Qed.

(** C8: [addTopic] always returns true; afterwards the global list of
    the topic is the old one (empty if the key was absent) followed by the
    type, the participant's list of the topic likewise, and the global map
    off the topic, the participant's map off the topic and the participant
    map off the participant are as before. *)
Theorem addTopic_effect h t ty c :
  let guid := iHandle2GUID h in
  let old_topics := default ∅ (participant_to_topics_ c !! guid) in
  ∃ c' topics',
    addTopic h t ty c = Ok (true, c') ∧
    topic_to_types_ c' !! t =
      Some (default [] (topic_to_types_ c !! t) ++ [ty]) ∧
    delete t (topic_to_types_ c') = delete t (topic_to_types_ c) ∧
    participant_to_topics_ c' !! guid = Some topics' ∧
    topics' !! t = Some (default [] (old_topics !! t) ++ [ty]) ∧
    delete t topics' = delete t old_topics ∧
    delete guid (participant_to_topics_ c') =
      delete guid (participant_to_topics_ c).
Proof.
  intros guid old_topics. rewrite addTopic_eq. cbv zeta.
  fold guid. fold old_topics.
  exists (mkTopicCache
            (<[t := default [] (topic_to_types_ c !! t) ++ [ty]]>
               (topic_to_types_ c))
            (<[guid := <[t := default [] (old_topics !! t) ++ [ty]]> old_topics]>
               (participant_to_topics_ c))),
         (<[t := default [] (old_topics !! t) ++ [ty]]> old_topics).
  simpl. split_and!; [done | apply lookup_insert_eq | apply delete_insert_eq
    | apply lookup_insert_eq | apply lookup_insert_eq
    | apply delete_insert_eq | apply delete_insert_eq].
Qed.

(** C6: [countParticipants] returns the sum, over the candidate names
    that are keys of the global map, of the lengths of their TypeLists,
    as long as that sum fits [size_t]; the index is left as it was. *)
Theorem countParticipants_sum c names :
  (registrations c names < Std.SIZE_MOD)%Z →
  countParticipants names c = Ok (registrations c names, c).
Proof.
  intros Hlt. unfold countParticipants.
  rewrite count_loop_spec by (pose proof SIZE_MOD_pos; lia).
  rewrite Z.add_0_l, Z.mod_small; [done|]. split; [|done].
  unfold registrations. clear.
  induction (omap _ names) as [|v l IH]; simpl; [done|].
  apply Z.add_nonneg_nonneg; [lia | exact IH].
Qed.

(** C10: the three read operations return with the index unchanged, and
    [cloneParticipantTopics] replaces the caller's map exactly when it
    reports that the participant was found. *)
Theorem read_operations_pure c :
  (∀ names, ∃ n, countParticipants names c = Ok (n, c)) ∧
  (∀ g out,
     cloneParticipantTopics g out c =
     Ok (match participant_to_topics_ c !! g with
         | Some topics => (true, topics)
         | None => (false, out)
         end, c)) ∧
  cloneTopicToTypes c = Ok (topic_to_types_ c, c).
Proof.
  split_and!.
  - intros names. eexists. unfold countParticipants.
    apply count_loop_spec. pose proof SIZE_MOD_pos. lia.
  - intros g out. unfold cloneParticipantTopics, mbind, M_bind,
      get_participant_to_topics. simpl.
    by destruct (participant_to_topics_ c !! g).
  - done.
Qed.

(** C7, as the code has it: in every reachable state no TypeList and no
    participant's topic map is empty, a topic is a key of the global map
    exactly when its global TypeList has at least one entry, and a topic
    that is a key of the global map has a registered (participant, type)
    entry.  The converse is lost by a removal from a participant that does
    not hold the type. *)
Theorem reachable_no_empty_collections c :
  reachable c →
  no_empty_collections c ∧
  (∀ t, is_Some (topic_to_types_ c !! t) ↔ ∃ ty, ty ∈ global_types c t) ∧
  (∀ t, is_Some (topic_to_types_ c !! t) → registered c t).
Proof.
  intros Hr. pose proof (reachable_no_empty c Hr) as [Hg Hl].
  assert (Hkey : ∀ t, is_Some (topic_to_types_ c !! t) ↔
                      ∃ ty, ty ∈ global_types c t).
  { intros t. unfold global_types, types_of. split.
    - intros [v Hv]. rewrite Hv. simpl. destruct v as [|ty v].
      + by destruct (Hg _ _ Hv).
      + exists ty. apply elem_of_list_to_set_disj. left.
    - intros [ty Hty]. apply elem_of_list_to_set_disj in Hty.
      destruct (topic_to_types_ c !! t); [eauto | by inversion Hty]. }
  split_and!; [by split | done |].
  intros t [ty Hty]%Hkey.
  pose proof (reachable_global_included c Hr t) as Hsub.
  apply (gmultiset_elem_of_subseteq _ _ _ Hty) in Hsub.
  apply elem_of_sum_types in Hsub as (g & topics & Hp & Hin).
  unfold types_of in Hin. apply elem_of_list_to_set_disj in Hin.
  exists g, topics. destruct (topics !! t) as [v|] eqn:Hv; [|by inversion Hin].
  exists v. split_and!; [done..|]. intros ->. by inversion Hin.
Qed.

(** C1, as the code has it: in every state reached from the empty index
    by [addTopic] calls and by [removeTopic] calls whose participant holds
    the type it withdraws, for every key of the global map the multiset
    union of the participants' lists equals the multiset of the global
    list and each participant's list is a sub-multiset of it; on a topic
    that is not a key no participant holds anything. *)
Theorem matched_cross_map_consistent c :
  matched_reachable c →
  cross_map_consistent c ∧
  ∀ t, topic_to_types_ c !! t = None → participants_types c t = ∅.
Proof.
  intros Hm. pose proof (matched_sum_eq c Hm) as Heq. split.
  - intros t _. split; [apply Heq|].
    intros g. rewrite <- Heq. apply local_types_subseteq.
  - intros t Ht. rewrite Heq. unfold global_types, types_of.
    by rewrite Ht.
Qed.

(** C5, as the code has it: in a state without empty collections,
    [addTopic] followed by [removeTopic] of the same triple returns true
    and restores both maps, except that the first earlier occurrence of
    the type in the global list of the topic, and in the participant's
    list of the topic, has moved to the end of that list; where the type
    did not occur before, the map is exactly as it was. *)
Theorem add_remove_round_trip h t ty c :
  no_empty_collections c →
  let guid := iHandle2GUID h in
  let c' := mkTopicCache
              (alter (move_to_back ty) t (topic_to_types_ c))
              (alter (alter (move_to_back ty) t) guid
                 (participant_to_topics_ c)) in
  (addTopic h t ty;; removeTopic h t ty) c = Ok (true, c') ∧
  no_empty_collections c' ∧
  (ty ∉ default [] (topic_to_types_ c !! t) →
   topic_to_types_ c' = topic_to_types_ c) ∧
  (¬ holds c h t ty →
   participant_to_topics_ c' = participant_to_topics_ c).
Proof.
  intros Hne guid c'.
  assert (Hrun : (addTopic h t ty;; removeTopic h t ty) c = Ok (true, c')).
  { destruct Hne as [Hg Hl].
    rewrite (bind_Ok _ _ _ _ _ (addTopic_eq h t ty c)).
    rewrite removeTopic_eq.
    cbn [topic_to_types_ participant_to_topics_]. cbv zeta. fold guid.
    rewrite (lookup_insert_eq (topic_to_types_ c) t).
    pose proof (erase_find_push_back (default [] (topic_to_types_ c !! t)) ty) as Heg.
    unfold Std.push_back in Heg. rewrite Heg.
    rewrite (lookup_insert_eq (participant_to_topics_ c) guid).
    rewrite (lookup_insert_eq (default ∅ (participant_to_topics_ c !! guid)) t).
    pose proof (erase_find_push_back
      (default [] (default ∅ (participant_to_topics_ c !! guid) !! t)) ty) as Hel.
    unfold Std.push_back in Hel. rewrite Hel.
    rewrite (settle_after_push_back _ _ _ Hg).
    do 2 f_equal. unfold c'. f_equal.
    destruct (participant_to_topics_ c !! guid) as [topics|] eqn:Hp;
      cbn [default].
    - destruct (Hl _ _ Hp) as [Hnemp Hne].
      rewrite (settle_after_push_back _ _ _ Hne).
      unfold settle_participant, map_is_empty. case_bool_decide as He.
      + by apply alter_empty_iff in He.
      + rewrite insert_insert_eq. by apply insert_as_alter.
    - rewrite settle_after_push_back by (intros ??; by rewrite lookup_empty).
      unfold settle_participant, map_is_empty. rewrite alter_empty.
      rewrite bool_decide_true by done.
      rewrite delete_insert_eq, delete_id by done.
      by rewrite alter_id' by done. }
  split_and!; [done| | |].
  - apply (removeTopic_no_empty h t ty) with (c := (mkTopicCache
      (<[t := default [] (topic_to_types_ c !! t) ++ [ty]]> (topic_to_types_ c))
      (<[guid := <[t := default [] (default ∅ (participant_to_topics_ c !! guid) !! t) ++ [ty]]>
           (default ∅ (participant_to_topics_ c !! guid))]> (participant_to_topics_ c))))
      (r := true).
    + apply (addTopic_no_empty h t ty c true); [done|]. by rewrite addTopic_eq.
    + by rewrite (bind_Ok _ _ _ _ _ (addTopic_eq h t ty c)) in Hrun.
  - intros Hty. simpl. apply alter_id. intros v Hv. rewrite Hv in Hty.
    by apply move_to_back_absent.
  - unfold holds. intros Hty. simpl. apply alter_id. intros topics Hp.
    fold guid in Hty. rewrite Hp in Hty. simpl in Hty.
    apply alter_id. intros v Hv. rewrite Hv in Hty.
    by apply move_to_back_absent.
Qed.

(** ** Further properties of the index *)

Lemma delete_settle (m : NameToNamesMap) t v :
  delete t (settle t v m) = delete t m.
Proof.
  unfold settle. destruct (Std.empty v).
  - by rewrite delete_delete_eq.
  - by rewrite delete_insert_eq.
Qed.

Lemma lookup_settle (m : NameToNamesMap) t v :
  settle t v m !! t = if Std.empty v then None else Some v.
Proof.
  unfold settle. destruct (Std.empty v).
  - by rewrite lookup_delete_eq.
  - by rewrite lookup_insert_eq.
Qed.

Lemma delete_settle_participant (m : ParticipantTopicMap) g topics :
  delete g (settle_participant g topics m) = delete g m.
Proof.
  unfold settle_participant. destruct (map_is_empty topics).
  - by rewrite delete_delete_eq.
  - by rewrite delete_insert_eq.
Qed.

Lemma lookup_settle_participant (m : ParticipantTopicMap) g topics :
  default ∅ (settle_participant g topics m !! g) = topics.
Proof.
  unfold settle_participant, map_is_empty. case_bool_decide as He.
  - by rewrite lookup_delete_eq, He.
  - by rewrite lookup_insert_eq.
Qed.

Lemma registrations_single c t :
  registrations c [t] =
  Z.of_nat (length (default [] (topic_to_types_ c !! t))).
Proof.
  unfold registrations. simpl.
  destruct (topic_to_types_ c !! t); simpl; lia.
Qed.

Lemma registrations_app c names1 names2 :
  registrations c (names1 ++ names2) =
  (registrations c names1 + registrations c names2)%Z.
Proof.
  unfold registrations. rewrite omap_app, fmap_app.
  generalize ((λ v : list string, Z.of_nat (length v))
                <$> omap (λ name, topic_to_types_ c !! name) names2).
  induction ((λ v : list string, Z.of_nat (length v))
               <$> omap (λ name, topic_to_types_ c !! name) names1)
    as [|x l IH]; intros l2; simpl; [done|].
  rewrite IH. apply Z.add_assoc.
Qed.

(** X1: a [removeTopic] that returns touches nothing but the entry of its
    topic in the global map, the entry of its participant in the participant
    map and, there, the entry of its topic. *)
Theorem removeTopic_frame h t ty c r c' :
  removeTopic h t ty c = Ok (r, c') →
  let guid := iHandle2GUID h in
  delete t (topic_to_types_ c') = delete t (topic_to_types_ c) ∧
  delete guid (participant_to_topics_ c') =
    delete guid (participant_to_topics_ c) ∧
  delete t (default ∅ (participant_to_topics_ c' !! guid)) =
    delete t (default ∅ (participant_to_topics_ c !! guid)).
Proof.
  rewrite removeTopic_eq. cbv zeta.
  destruct (topic_to_types_ c !! t) as [gv|]; [|by intros [= <- <-]].
  destruct (Std.erase gv (Std.find gv ty)) as [gv'|]; [|done].
  destruct (participant_to_topics_ c !! iHandle2GUID h) as [topics|] eqn:Hp.
  2: { intros [= <- <-]. simpl. by rewrite delete_settle, Hp. }
  destruct (topics !! t) as [lv|].
  2: { intros [= <- <-]. simpl. by rewrite delete_settle, Hp. }
  destruct (Std.erase lv (Std.find lv ty)) as [lv'|]; [|done].
  intros [= <- <-]. simpl.
  by rewrite delete_settle, delete_settle_participant,
    lookup_settle_participant, delete_settle.
Qed.

Lemma lookup_settle_ne (m : NameToNamesMap) t t' v :
  t ≠ t' → settle t v m !! t' = m !! t'.
Proof.
  intros Hne. unfold settle. destruct (Std.empty v).
  - by rewrite lookup_delete_ne.
  - by rewrite lookup_insert_ne.
Qed.

Lemma length_first_erased (v1 v2 : list string) ty :
  Z.of_nat (length (default [] (if Std.empty (v1 ++ v2) then None
                                else Some (v1 ++ v2)))) =
  (Z.of_nat (length (v1 ++ ty :: v2)) - 1)%Z.
Proof.
  assert (default [] (if Std.empty (v1 ++ v2) then None else Some (v1 ++ v2))
          = v1 ++ v2) as -> by (by destruct (v1 ++ v2)).
  rewrite !length_app. simpl. lia.
Qed.

(** The global side of a removal that returned true. *)
Lemma removeTopic_global h t ty c c' :
  removeTopic h t ty c = Ok (true, c') →
  ∃ v1 v2, topic_to_types_ c !! t = Some (v1 ++ ty :: v2) ∧ (ty ∉ v1) ∧
           topic_to_types_ c' = settle t (v1 ++ v2) (topic_to_types_ c).
Proof.
  rewrite removeTopic_eq. cbv zeta.
  destruct (topic_to_types_ c !! t) as [gv|]; [|done].
  destruct (Std.erase gv (Std.find gv ty)) as [gv'|] eqn:He; [|done].
  assert (Hin : ty ∈ gv) by (apply erase_find_is_Some; eauto).
  destruct (erase_find_Some _ _ Hin) as (v1 & v2 & -> & Hv1 & He').
  rewrite He in He'. injection He' as ->.
  intros Hrm. exists v1, v2. split_and!; [done..|].
  repeat case_match; try done; by injection Hrm as <-.
Qed.

(** The participant's side of a removal that returned true, when the
    participant has the topic. *)
Lemma removeTopic_local h t ty c c' topics lv :
  removeTopic h t ty c = Ok (true, c') →
  participant_to_topics_ c !! iHandle2GUID h = Some topics →
  topics !! t = Some lv →
  ∃ l1 l2, lv = l1 ++ ty :: l2 ∧ (ty ∉ l1) ∧
           participant_to_topics_ c' =
             settle_participant (iHandle2GUID h) (settle t (l1 ++ l2) topics)
               (participant_to_topics_ c).
Proof.
  rewrite removeTopic_eq. cbv zeta. intros Hrm Hp Hlv.
  destruct (topic_to_types_ c !! t) as [gv|]; [|done].
  destruct (Std.erase gv (Std.find gv ty)) as [gv'|]; [|done].
  rewrite Hp, Hlv in Hrm.
  destruct (Std.erase lv (Std.find lv ty)) as [lv'|] eqn:He; [|done].
  assert (Hin : ty ∈ lv) by (apply erase_find_is_Some; eauto).
  destruct (erase_find_Some _ _ Hin) as (l1 & l2 & -> & Hl1 & He').
  rewrite He in He'. injection He' as ->.
  exists l1, l2. split_and!; [done..|]. by injection Hrm as <-.
Qed.

(** X2: a [removeTopic] that returns true has erased the first occurrence
    of the type from the global list of the topic, and from the list that
    the participant has for the topic, if it has one; a list that becomes
    empty is erased with its key. *)
Theorem removeTopic_first_occurrence h t ty c c' :
  removeTopic h t ty c = Ok (true, c') →
  let guid := iHandle2GUID h in
  (∃ v1 v2, topic_to_types_ c !! t = Some (v1 ++ ty :: v2) ∧ (ty ∉ v1) ∧
            topic_to_types_ c' !! t =
              if Std.empty (v1 ++ v2) then None else Some (v1 ++ v2)) ∧
  (∀ lv, default ∅ (participant_to_topics_ c !! guid) !! t = Some lv →
     ∃ l1 l2, lv = l1 ++ ty :: l2 ∧ (ty ∉ l1) ∧
              default ∅ (participant_to_topics_ c' !! guid) !! t =
                if Std.empty (l1 ++ l2) then None else Some (l1 ++ l2)).
Proof.
  intros Hrm guid. split.
  - destruct (removeTopic_global _ _ _ _ _ Hrm) as (v1 & v2 & Hv & Hv1 & ->).
    exists v1, v2. by rewrite lookup_settle.
  - intros lv Hlv.
    destruct (participant_to_topics_ c !! guid) as [topics|] eqn:Hp;
      simpl in Hlv; [|by rewrite lookup_empty in Hlv].
    destruct (removeTopic_local _ _ _ _ _ _ _ Hrm Hp Hlv)
      as (l1 & l2 & -> & Hl1 & ->).
    exists l1, l2. fold guid.
    by rewrite lookup_settle_participant, lookup_settle.
Qed.

(** X3: [removeTopic] has a defined outcome exactly when the topic is not
    a key of the global map, or the type occurs in the global list of the
    topic and the participant either has no list for the topic or has the
    type in it. *)
Theorem removeTopic_defined_iff h t ty c :
  (∃ r c', removeTopic h t ty c = Ok (r, c')) ↔
  topic_to_types_ c !! t = None ∨
  (ty ∈ default [] (topic_to_types_ c !! t) ∧
   (default ∅ (participant_to_topics_ c !! iHandle2GUID h) !! t = None ∨
    ty ∈ default []
           (default ∅ (participant_to_topics_ c !! iHandle2GUID h) !! t))).
Proof.
  rewrite removeTopic_eq. cbv zeta.
  destruct (topic_to_types_ c !! t) as [gv|]; simpl; [|by split; eauto].
  destruct (decide (ty ∈ gv)) as [Hin|Hnin].
  2: { rewrite (erase_find_None _ _ Hnin).
       split; [by intros (?&?&?) | by intros [?|[? _]]]. }
  pose proof Hin as [gv' ->]%erase_find_is_Some.
  destruct (participant_to_topics_ c !! iHandle2GUID h) as [topics|]; simpl.
  2: { rewrite lookup_empty. split; [by eauto | by eauto]. }
  destruct (topics !! t) as [lv|]; simpl; [|by split; eauto].
  destruct (decide (ty ∈ lv)) as [Hl|Hnl].
  - pose proof Hl as [lv' ->]%erase_find_is_Some. split; eauto.
  - rewrite (erase_find_None _ _ Hnl).
    split; [by intros (?&?&?) | by intros [?|[_ [?|?]]]].
Qed.

(** X4: whenever [removeTopic] returns, it returns false exactly when the
    topic was not a key of the global map, and then the index is as before;
    it returns true exactly when the global list of the topic lost one
    occurrence of the type. *)
Theorem removeTopic_return_value h t ty c r c' :
  removeTopic h t ty c = Ok (r, c') →
  (r = false ↔ topic_to_types_ c !! t = None) ∧
  (r = true ↔ global_types c t = {[+ ty +]} ⊎ global_types c' t) ∧
  (if r then registrations c' [t] = (registrations c [t] - 1)%Z else c' = c).
Proof.
  intros Hrm. destruct (removeTopic_returns _ _ _ _ _ _ Hrm) as [Ht Hf].
  split_and!; [done..|]. destruct r.
  - destruct (removeTopic_global _ _ _ _ _ Hrm) as (v1 & v2 & Hv & _ & Hc').
    rewrite !registrations_single, Hc', lookup_settle, Hv.
    simpl. rewrite (length_first_erased v1 v2 ty). lia.
  - by apply removeTopic_rejected in Hrm as [_ ->].
Qed.

(** X5: in a state reached by calls in which a participant only withdraws
    what it holds, withdrawing a held type is defined and returns true, the
    state it leaves is of the same kind, and the topic counts one
    registration less. *)
Theorem matched_removal_defined h t ty c :
  matched_reachable c → holds c h t ty →
  ∃ c', removeTopic h t ty c = Ok (true, c') ∧
        matched_reachable c' ∧
        registrations c' [t] = (registrations c [t] - 1)%Z.
Proof.
  intros Hm Hheld.
  destruct (removeTopic_held h t ty c) as (c' & Hrm & _); [|done|].
  { intros g t'. unfold local_types. rewrite <- (matched_sum_eq c Hm).
    apply local_types_subseteq. }
  exists c'. split_and!; [done | by eapply matched_remove |].
  destruct (removeTopic_global _ _ _ _ _ Hrm) as (v1 & v2 & Hv & _ & Hc').
  rewrite !registrations_single, Hc', lookup_settle, Hv.
  simpl. rewrite (length_first_erased v1 v2 ty). lia.
Qed.

(** X6: in every reachable state the types of the global list of a topic
    are covered, as a multiset, by the types that the participants hold on
    the topic. *)
Theorem reachable_global_covered c t :
  reachable c → global_types c t ⊆ participants_types c t.
Proof. intros Hr. by apply reachable_global_included. Qed.

(** X7: one call changes the number of registrations counted on a topic by
    one up for an [addTopic] on that topic, by one down for a [removeTopic]
    on that topic that returns true, and not at all otherwise. *)
Theorem exec_count_change op c r c' t :
  exec op c = Ok (r, c') →
  registrations c' [t] = (registrations c [t] + count_change op r t)%Z.
Proof.
  destruct op as [h t0 ty|h t0 ty]; simpl; intros Hstep.
  - case_decide as Ht; [subst; by eapply registrations_addTopic|].
    rewrite addTopic_eq in Hstep. injection Hstep as <- <-.
    rewrite !registrations_single. simpl.
    rewrite lookup_insert_ne by done. lia.
  - destruct r.
    2: { apply removeTopic_rejected in Hstep as [_ ->]. case_decide; lia. }
    destruct (removeTopic_global _ _ _ _ _ Hstep) as (v1 & v2 & Hv & _ & Hc').
    rewrite !registrations_single, Hc'. case_decide as Ht.
    + subst. rewrite lookup_settle, Hv.
      simpl. rewrite (length_first_erased v1 v2 ty). lia.
    + rewrite lookup_settle_ne by done. lia.
Qed.

(** X8: counting over two candidate lists, one after the other, and adding
    the two results as [size_t] is counting over their concatenation. *)
Theorem countParticipants_app names1 names2 c :
  countParticipants (names1 ++ names2) c =
  (n1 ← countParticipants names1;
   n2 ← countParticipants names2;
   mret (Std.size_add n1 n2)) c.
Proof.
  unfold mbind, M_bind. rewrite !countParticipants_wraps.
  unfold mret, M_ret, Std.size_add.
  by rewrite registrations_app, Zplus_mod.
Qed.

Lemma insert_settle (m : NameToNamesMap) t v w :
  <[t := w]> (settle t v m) = <[t := w]> m.
Proof.
  unfold settle. destruct (Std.empty v).
  - by rewrite insert_delete_eq.
  - by rewrite insert_insert_eq.
Qed.

Lemma insert_settle_participant (m : ParticipantTopicMap) g topics topics' :
  <[g := topics']> (settle_participant g topics m) = <[g := topics']> m.
Proof.
  unfold settle_participant. destruct (map_is_empty topics).
  - by rewrite insert_delete_eq.
  - by rewrite insert_insert_eq.
Qed.

Lemma move_to_back_first ty (v1 v2 : list string) :
  ty ∉ v1 → move_to_back ty (v1 ++ ty :: v2) = (v1 ++ v2) ++ [ty].
Proof.
  induction v1 as [|y v1 IH]; simpl.
  - intros _. by rewrite decide_True by done.
  - rewrite not_elem_of_cons. intros [Hne Hv1].
    rewrite decide_False by done. by rewrite IH.
Qed.

(** What [addTopic] puts under a topic whose list has just lost the first
    occurrence of the type. *)
Lemma push_back_after_settle (m : NameToNamesMap) t ty v1 v2 :
  m !! t = Some (v1 ++ ty :: v2) → ty ∉ v1 →
  <[t := default [] (settle t (v1 ++ v2) m !! t) ++ [ty]]>
    (settle t (v1 ++ v2) m) =
  alter (move_to_back ty) t m.
Proof.
  intros Hm Hv1. rewrite insert_settle, lookup_settle.
  assert (default [] (if Std.empty (v1 ++ v2) then None else Some (v1 ++ v2))
          = v1 ++ v2) as -> by (by destruct (v1 ++ v2)).
  rewrite <- (move_to_back_first ty v1 v2 Hv1). by apply insert_as_alter.
Qed.

(** X9: in a reachable state [cloneParticipantTopics] finds a participant
    exactly when the participant holds a type on some topic; what it then
    copies is the participant's topic map, which is not empty and has no
    empty list; otherwise the caller's map is left as it was.  The index is
    unchanged. *)
Theorem cloneParticipantTopics_found_iff c g out :
  reachable c →
  ∃ found snapshot,
    cloneParticipantTopics g out c = Ok ((found, snapshot), c) ∧
    (found = true ↔ ∃ t ty, ty ∈ local_types c g t) ∧
    (if found
     then participant_to_topics_ c !! g = Some snapshot ∧
          snapshot ≠ ∅ ∧ types_nonempty snapshot
     else snapshot = out).
Proof.
  intros [_ Hl]%reachable_no_empty.
  unfold cloneParticipantTopics, mbind, M_bind, get_participant_to_topics,
    local_types, types_of.
  destruct (participant_to_topics_ c !! g) as [topics|] eqn:Hp; simpl.
  - destruct (Hl _ _ Hp) as [Hne Hty].
    exists true, topics. split_and!; [done | | done..].
    split; [intros _|done].
    destruct (map_choose _ Hne) as (t & v & Hv).
    destruct v as [|ty v]; [by destruct (Hty _ _ Hv)|].
    exists t, ty. rewrite Hv.
    apply elem_of_list_to_set_disj. simpl. left.
  - exists false, out. split_and!; [done | | done].
    split; [done|]. intros (t & ty & Hin).
    rewrite lookup_empty in Hin. simpl in Hin. multiset_solver.
Qed.

(** X10: two [addTopic] calls on different topics can be made in either
    order: the index ends in the same state, whoever the participants and
    whatever the types. *)
Theorem addTopic_commute h1 t1 ty1 h2 t2 ty2 c :
  t1 ≠ t2 →
  (addTopic h1 t1 ty1;; addTopic h2 t2 ty2) c =
  (addTopic h2 t2 ty2;; addTopic h1 t1 ty1) c.
Proof.
  intros Hne.
  rewrite (bind_Ok _ _ _ _ _ (addTopic_eq h1 t1 ty1 c)).
  rewrite (bind_Ok _ _ _ _ _ (addTopic_eq h2 t2 ty2 c)).
  rewrite !addTopic_eq. cbn [topic_to_types_ participant_to_topics_]. cbv zeta.
  do 3 f_equal.
  - rewrite (lookup_insert_ne (topic_to_types_ c) t1 t2) by done.
    rewrite (lookup_insert_ne (topic_to_types_ c) t2 t1) by done.
    by apply insert_insert_ne.
  - set (ptt := participant_to_topics_ c).
    destruct (decide (iHandle2GUID h1 = iHandle2GUID h2)) as [Hg|Hg].
    + rewrite <- Hg.
      rewrite !(lookup_insert_eq ptt (iHandle2GUID h1)). simpl.
      rewrite !insert_insert_eq.
      set (topics := default ∅ (ptt !! iHandle2GUID h1)).
      rewrite (lookup_insert_ne topics t1 t2) by done.
      rewrite (lookup_insert_ne topics t2 t1) by done.
      f_equal. by apply insert_insert_ne.
    + rewrite (lookup_insert_ne ptt (iHandle2GUID h1) (iHandle2GUID h2)) by done.
      rewrite (lookup_insert_ne ptt (iHandle2GUID h2) (iHandle2GUID h1)) by done.
      by apply insert_insert_ne.
Qed.

(** X11: when a participant withdraws a type that it holds and registers it
    again, both maps are as before the two calls, except that the first
    occurrence of the type in the global list of the topic, and in the
    participant's list of the topic, has moved to the end of that list. *)
Theorem remove_add_round_trip h t ty c c' :
  holds c h t ty →
  removeTopic h t ty c = Ok (true, c') →
  addTopic h t ty c' =
  Ok (true,
      mkTopicCache
        (alter (move_to_back ty) t (topic_to_types_ c))
        (alter (alter (move_to_back ty) t) (iHandle2GUID h)
           (participant_to_topics_ c))).
Proof.
  unfold holds. intros Hheld Hrm.
  destruct (participant_to_topics_ c !! iHandle2GUID h) as [topics|] eqn:Hp;
    simpl in Hheld; [|rewrite lookup_empty in Hheld; by inversion Hheld].
  destruct (topics !! t) as [lv|] eqn:Hlv; simpl in Hheld;
    [|by inversion Hheld].
  destruct (removeTopic_global _ _ _ _ _ Hrm) as (v1 & v2 & Hv & Hv1 & Hg).
  destruct (removeTopic_local _ _ _ _ _ _ _ Hrm Hp Hlv)
    as (l1 & l2 & -> & Hl1 & Hl).
  rewrite addTopic_eq, Hg, Hl. cbv zeta.
  rewrite lookup_settle_participant, insert_settle_participant.
  rewrite (push_back_after_settle _ _ _ _ _ Hv Hv1).
  rewrite (push_back_after_settle _ _ _ _ _ Hlv Hl1).
  do 3 f_equal. by apply insert_as_alter.
Qed.

(** X16: in a reachable state the topics that [cloneTopicToTypes] lists
    are exactly the topics on which at least one registration is counted,
    and none of them has an empty list. *)
Theorem cloneTopicToTypes_keys c t :
  reachable c →
  ∃ snapshot,
    cloneTopicToTypes c = Ok (snapshot, c) ∧
    (is_Some (snapshot !! t) ↔ (0 < registrations c [t])%Z) ∧
    types_nonempty snapshot.
Proof.
  intros [Hg _]%reachable_no_empty. exists (topic_to_types_ c).
  split_and!; [done | | done].
  rewrite registrations_single.
  destruct (topic_to_types_ c !! t) as [v|] eqn:Hv; simpl.
  - split; [intros _|by eauto].
    destruct v; [by destruct (Hg _ _ Hv) | simpl; lia].
  - split; [by intros [? ?] | lia].
Qed.

(** X17: a [removeTopic] from a participant that has no list for the topic
    still erases the type from the global list and returns true, and leaves
    the participant map as it was. *)
Theorem removeTopic_not_held h t ty c :
  ty ∈ default [] (topic_to_types_ c !! t) →
  default ∅ (participant_to_topics_ c !! iHandle2GUID h) !! t = None →
  ∃ c', removeTopic h t ty c = Ok (true, c') ∧
        participant_to_topics_ c' = participant_to_topics_ c ∧
        global_types c t = {[+ ty +]} ⊎ global_types c' t.
Proof.
  intros Hin Hnone.
  assert (Hrm : ∃ c', removeTopic h t ty c = Ok (true, c') ∧
                      participant_to_topics_ c' = participant_to_topics_ c).
  { rewrite removeTopic_eq. cbv zeta.
    destruct (topic_to_types_ c !! t) as [gv|]; simpl in Hin;
      [|by inversion Hin].
    apply erase_find_is_Some in Hin as [gv' ->].
    destruct (participant_to_topics_ c !! iHandle2GUID h) as [topics|];
      simpl in Hnone; [rewrite Hnone|]; eauto. }
  destruct Hrm as (c' & Hrm & Hp). exists c'. split_and!; [done..|].
  pose proof (removeTopic_types_global _ _ _ _ _ t Hrm) as Hg.
  unfold registration in Hg. by rewrite decide_True in Hg by done.
Qed.

(** What a registration adds to a count over several candidate names. *)
Lemma registrations_addTopic_names h t ty c r c' names :
  addTopic h t ty c = Ok (r, c') →
  registrations c' names =
  (registrations c names
   + Z.of_nat (length (filter (λ name, name = t) names)))%Z.
Proof.
  intros Hadd. induction names as [|name names IH]; [done|].
  change (name :: names) with ([name] ++ names).
  rewrite !registrations_app, IH, filter_app, length_app.
  rewrite filter_cons, filter_nil. case_decide as Hname.
  - subst. rewrite (registrations_addTopic _ _ _ _ _ _ Hadd). simpl. lia.
  - rewrite addTopic_eq in Hadd. injection Hadd as <- <-.
    rewrite !registrations_single. simpl.
    rewrite lookup_insert_ne by done. lia.
Qed.

End Properties.

(** * Properties of the count queries *)

Section RmwCountProperties.

Context {GUID_t : Type} `{Countable GUID_t}.
Context {InstanceHandle_t : Type} `{Handle2GUID InstanceHandle_t GUID_t}.
Context `{RosPrefixes}.
Context {Identifier : Type} `{EqDecision Identifier}.

Implicit Types node : option (rmw_node_t (GUID_t := GUID_t) (Identifier := Identifier)).
Implicit Types identifier : Identifier.
Implicit Types n : rmw_node_t (GUID_t := GUID_t) (Identifier := Identifier).

Lemma foldl_push_back (f : string → string) (l acc : list string) :
  foldl (λ acc x, Std.push_back (f x) acc) acc l = acc ++ (f <$> l).
Proof.
  revert acc. induction l as [|x l IH]; intros acc; simpl.
  - by rewrite app_nil_r.
  - rewrite IH. unfold Std.push_back. by rewrite <- app_assoc.
Qed.

(** X12: the candidate list of a count query is the topic name itself,
    followed, only when the name starts with '/', by the name behind each
    ROS prefix, in the order of the prefixes; any other name, the empty one
    included, is looked up alone. *)
Theorem build_topic_fqdns_candidates topic_name :
  build_topic_fqdns topic_name =
  topic_name ::
    (if starts_with_slash topic_name
     then (λ prefix, prefix +:+ topic_name) <$> _get_all_ros_prefixes
     else []).
Proof.
  unfold build_topic_fqdns. cbv zeta.
  destruct (starts_with_slash topic_name); [|done].
  by rewrite foldl_push_back.
Qed.

(** X13: called with a C string and a place for the count, the two count
    queries always return; they return [RMW_RET_ERROR]
    exactly for a null node and for a node of another implementation, and
    then [*count] and the caches are as before and an error message is
    set. *)
Theorem rmw_count_error_iff identifier node topic_name count error_msg :
  ∃ pub sub,
    __rmw_count_publishers identifier node topic_name count error_msg = Ok pub ∧
    __rmw_count_subscribers identifier node topic_name count error_msg = Ok sub ∧
    (ret pub = RMW_RET_ERROR ↔
     node = None ∨
     ∃ n, node = Some n ∧ implementation_identifier n ≠ identifier) ∧
    (ret sub = RMW_RET_ERROR ↔ ret pub = RMW_RET_ERROR) ∧
    (ret pub = RMW_RET_ERROR →
     count_after pub = count ∧ count_after sub = count ∧
     node_after pub = node ∧ node_after sub = node ∧
     is_Some (error_msg_after pub) ∧ is_Some (error_msg_after sub)).
Proof.
  unfold __rmw_count_publishers, __rmw_count_subscribers.
  destruct node as [n|].
  2: { eexists _, _. split_and!; [done..| | |]; simpl; naive_solver. }
  case_decide as Hid.
  { eexists _, _. split_and!; [done..| | |]; simpl; naive_solver. }
  cbv zeta. rewrite !countParticipants_wraps.
  eexists _, _. split_and!; [done..| | |]; simpl; [|done|done].
  split; [done|]. intros [?|(n' & [= <-] & Hn')]; [done|].
  by destruct Hid.
Qed.

Lemma rmw_count_ok_eq identifier n topic_name count error_msg :
  implementation_identifier n = identifier →
  __rmw_count_publishers identifier (Some n) topic_name count error_msg =
    Ok (mk_rmw_count_result RMW_RET_OK
          (registrations (writer_topic_cache (data n))
             (build_topic_fqdns topic_name) mod Std.SIZE_MOD)%Z
          error_msg (Some n)) ∧
  __rmw_count_subscribers identifier (Some n) topic_name count error_msg =
    Ok (mk_rmw_count_result RMW_RET_OK
          (registrations (reader_topic_cache (data n))
             (build_topic_fqdns topic_name) mod Std.SIZE_MOD)%Z
          error_msg (Some n)).
Proof.
  intros Hid. unfold __rmw_count_publishers, __rmw_count_subscribers.
  case_decide as Hne; [done|].
  cbv zeta. rewrite !countParticipants_wraps.
  by destruct n as [id [w r]].
Qed.

(** X14: for a node of this implementation both queries return
    [RMW_RET_OK], leave the caches and the error state as they were and
    store in [*count] the sum, as a [size_t], of the lengths of the TypeLists
    that the candidate names have: in the writer cache for publishers, in the
    reader cache for subscribers. *)
Theorem rmw_count_ok identifier n topic_name count error_msg :
  implementation_identifier n = identifier →
  __rmw_count_publishers identifier (Some n) topic_name count error_msg =
    Ok (mk_rmw_count_result RMW_RET_OK
          (registrations (writer_topic_cache (data n))
             (build_topic_fqdns topic_name) mod Std.SIZE_MOD)%Z
          error_msg (Some n)) ∧
  __rmw_count_subscribers identifier (Some n) topic_name count error_msg =
    Ok (mk_rmw_count_result RMW_RET_OK
          (registrations (reader_topic_cache (data n))
             (build_topic_fqdns topic_name) mod Std.SIZE_MOD)%Z
          error_msg (Some n)).
Proof. apply rmw_count_ok_eq. Qed.

(** X15: after a writer is discovered on a topic, that is after [addTopic]
    on the writer cache, the publisher count of a query grows, as a
    [size_t], by the number of its candidate names that equal the topic; the
    subscriber count is the same as before. *)
Theorem rmw_count_after_discovery identifier n h topic ty r writer'
    topic_name count error_msg :
  implementation_identifier n = identifier →
  addTopic h topic ty (writer_topic_cache (data n)) = Ok (r, writer') →
  let n' := mk_rmw_node_t identifier
              (mkCustomParticipantInfo writer' (reader_topic_cache (data n))) in
  ∃ pub pub' sub sub',
    __rmw_count_publishers identifier (Some n) topic_name count error_msg
      = Ok pub ∧
    __rmw_count_publishers identifier (Some n') topic_name count error_msg
      = Ok pub' ∧
    __rmw_count_subscribers identifier (Some n) topic_name count error_msg
      = Ok sub ∧
    __rmw_count_subscribers identifier (Some n') topic_name count error_msg
      = Ok sub' ∧
    count_after pub' =
      Std.size_add (count_after pub)
        (Z.of_nat (length (filter (λ name, name = topic)
                             (build_topic_fqdns topic_name)))) ∧
    count_after sub' = count_after sub.
Proof.
  intros Hid Hadd n'.
  destruct (rmw_count_ok_eq identifier n topic_name count error_msg Hid)
    as [Hpub Hsub].
  destruct (rmw_count_ok_eq identifier n' topic_name count error_msg eq_refl)
    as [Hpub' Hsub'].
  eexists _, _, _, _. split_and!; [done..| |done]. simpl.
  rewrite (registrations_addTopic_names _ _ _ _ _ _ _ Hadd).
  unfold Std.size_add. by rewrite Zplus_mod_idemp_l.
Qed.

End RmwCountProperties.

(** ** The concrete indexes *)

Lemma chatter_matched : matched_reachable chatter.
Proof.
  apply (run_matched_reachable
           [Add P1 "/chatter" "std_msgs/String";
            Add P2 "/chatter" "std_msgs/String"] empty_cache);
    [apply matched_empty | vm_compute; reflexivity].
Qed.

Lemma one_type_reachable : reachable one_type.
Proof.
  apply (run_reachable [Add P1 "t" "A"] empty_cache);
    [apply reachable_empty | vm_compute; reflexivity].
Qed.

Lemma two_types_reachable : reachable two_types.
Proof.
  apply (run_reachable [Add P1 "t" "A"; Add P1 "t" "B"] empty_cache);
    [apply reachable_empty | vm_compute; reflexivity].
Qed.

Lemma two_participants_reachable : reachable two_participants.
Proof.
  apply (run_reachable [Add P1 "t" "A"; Add P2 "t" "B"] empty_cache);
    [apply reachable_empty | vm_compute; reflexivity].
Qed.

Lemma ghost_reachable : reachable ghost.
Proof.
  apply (run_reachable
           [Add P1 "t" "A"; Remove P2 "t" "A"; Add P2 "t" "B"] empty_cache);
    [apply reachable_empty | vm_compute; reflexivity].
Qed.

Lemma orphan_reachable : reachable orphan.
Proof.
  apply (run_reachable [Add P1 "t" "A"; Remove P2 "t" "A"] empty_cache);
    [apply reachable_empty | vm_compute; reflexivity].
Qed.

(** The scenario of the specification, step by step. *)
Example chatter_scenario :
  countParticipants ["/chatter"] chatter = Ok (2%Z, chatter) ∧
  removeTopic P1 "/chatter" "std_msgs/String" chatter
    = Ok (true, chatter_P2) ∧
  countParticipants ["/chatter"] chatter_P2 = Ok (1%Z, chatter_P2) ∧
  cloneParticipantTopics P1 ∅ chatter_P2 = Ok ((false, ∅), chatter_P2) ∧
  removeTopic P2 "/chatter" "std_msgs/String" chatter_P2
    = Ok (true, empty_cache) ∧
  countParticipants ["/chatter"] (empty_cache (GUID_t := N))
    = Ok (0%Z, empty_cache).
Proof. split_and!; vm_compute; reflexivity. Qed.

(** A registration made twice is counted twice. *)
Example repeated_registration_counted :
  run [Add P1 "t" "A"; Add P1 "t" "A"] empty_cache
    = Ok (mkTopicCache {[ "t" := ["A"; "A"] ]}
                       {[ P1 := {[ "t" := ["A"; "A"] ]} ]}) ∧
  countParticipants ["t"]
    (mkTopicCache (GUID_t := N) {[ "t" := ["A"; "A"] ]}
                  {[ P1 := {[ "t" := ["A"; "A"] ]} ]})
    = Ok (2%Z, mkTopicCache {[ "t" := ["A"; "A"] ]}
                            {[ P1 := {[ "t" := ["A"; "A"] ]} ]}).
Proof. split; vm_compute; reflexivity. Qed.

(** C1, refuted as stated: [ghost] is reachable, "t" is a key of its global
    map, and the participants together hold "A" and "B" on "t" while the
    global list holds "B" alone. *)
Lemma cross_map_consistency_fails :
  reachable ghost ∧ ¬ cross_map_consistent ghost.
Proof.
  split; [apply ghost_reachable|]. intros Hc.
  destruct (Hc "t") as [Heq _]; [by eexists; vm_compute|].
  apply (f_equal (multiplicity "A")) in Heq. vm_compute in Heq. discriminate.
Qed.

Lemma matched_cross_map_consistent_witness :
  matched_reachable chatter ∧
  (cross_map_consistent chatter ∧
   ∀ t, topic_to_types_ chatter !! t = None → participants_types chatter t = ∅).
Proof.
  split; [apply chatter_matched|].
  apply (matched_cross_map_consistent chatter), chatter_matched.
Defined.

(** C2: both erasures of [removeTopic] reach [end()] in reachable states.
    In [one_type] the topic is a key and "B" is not in its global list; in
    [two_participants] "B" is in the global list and [P1] has the topic,
    but "B" is not in [P1]'s list. *)
Theorem removeTopic_erases_end :
  (reachable one_type ∧
   topic_to_types_ one_type !! "t" = Some ["A"] ∧
   removeTopic P1 "t" "B" one_type = Undefined) ∧
  (reachable two_participants ∧
   topic_to_types_ two_participants !! "t" = Some ["A"; "B"] ∧
   participant_to_topics_ two_participants !! P1 = Some {[ "t" := ["A"] ]} ∧
   removeTopic P1 "t" "B" two_participants = Undefined).
Proof.
  split_and!; try (vm_compute; reflexivity).
  - apply one_type_reachable.
  - apply two_participants_reachable.
Qed.

(** C3: in [one_type] no occurrence of "B" can be removed from the global
    list of "t", and [removeTopic] returns neither false nor true. *)
Theorem removeTopic_no_return :
  reachable one_type ∧
  ("B" ∉ default [] (topic_to_types_ one_type !! "t")) ∧
  ∀ r c', removeTopic P1 "t" "B" one_type ≠ Ok (r, c').
Proof.
  split_and!.
  - apply one_type_reachable.
  - vm_compute. intros Hin. apply list_elem_of_In in Hin. simpl in Hin.
    destruct Hin as [Heq|[]]. discriminate.
  - intros r c'. vm_compute. discriminate.
Qed.

Lemma removeTopic_absent_topic_witness :
  topic_to_types_ one_type !! "u" = None ∧
  removeTopic P2 "u" "A" one_type = Ok (false, one_type).
Proof.
  split; [vm_compute; reflexivity|].
  apply (removeTopic_absent_topic P2 "u" "A" one_type).
  vm_compute; reflexivity.
Defined.

(** C5, refuted as stated: from the reachable [two_types], adding and
    removing "A" on "t" leaves the global list as "B", "A". *)
Lemma round_trip_reorders :
  reachable two_types ∧
  ∃ c', (addTopic P1 "t" "A";;
         removeTopic P1 "t" "A") two_types = Ok (true, c') ∧
        topic_to_types_ two_types !! "t" = Some ["A"; "B"] ∧
        topic_to_types_ c' !! "t" = Some ["B"; "A"] ∧
        c' ≠ two_types.
Proof.
  split; [apply two_types_reachable|].
  exists (mkTopicCache {[ "t" := ["B"; "A"] ]} {[ P1 := {[ "t" := ["B"; "A"] ]} ]}).
  split_and!; [vm_compute; reflexivity..|].
  intros Heq. apply (f_equal (λ c, topic_to_types_ c !! "t")) in Heq.
  vm_compute in Heq. discriminate.
Qed.

Lemma add_remove_round_trip_witness :
  no_empty_collections two_types ∧
  (addTopic P1 "t" "A";; removeTopic P1 "t" "A") two_types =
  Ok (true,
      mkTopicCache
        (alter (move_to_back "A") "t" (topic_to_types_ two_types))
        (alter (alter (move_to_back "A") "t") (iHandle2GUID P1)
           (participant_to_topics_ two_types))).
Proof.
  assert (Hne : no_empty_collections two_types)
    by apply reachable_no_empty, two_types_reachable.
  split; [exact Hne|].
  exact (proj1 (add_remove_round_trip P1 "t" "A" two_types Hne)).
Defined.

Lemma countParticipants_sum_witness :
  (registrations chatter ["/chatter"; "rt/chatter"; "/chatter"]
     < Std.SIZE_MOD)%Z ∧
  countParticipants ["/chatter"; "rt/chatter"; "/chatter"] chatter
    = Ok (4%Z, chatter).
Proof.
  split; [vm_compute; reflexivity|].
  apply (countParticipants_sum chatter ["/chatter"; "rt/chatter"; "/chatter"]).
  vm_compute; reflexivity.
Defined.

(** C7, refuted as stated: in the reachable [orphan], [P1] holds a
    registration on "t" and "t" is not a key of the global map. *)
Lemma registration_without_key :
  reachable orphan ∧
  registered orphan "t" ∧
  ¬ is_Some (topic_to_types_ orphan !! "t").
Proof.
  split_and!.
  - apply orphan_reachable.
  - exists P1, {[ "t" := ["A"] ]}, ["A"].
    split_and!; [vm_compute; reflexivity .. | done].
  - intros [v Hv]. vm_compute in Hv. discriminate.
Qed.

Lemma reachable_no_empty_collections_witness :
  reachable ghost ∧ no_empty_collections ghost.
Proof.
  split; [apply ghost_reachable|].
  exact (proj1 (reachable_no_empty_collections ghost ghost_reachable)).
Defined.

(** ** The further properties at concrete indexes *)

Lemma repeated_matched : matched_reachable repeated.
Proof.
  apply (run_matched_reachable
           [Add P1 "t" "A"; Add P1 "t" "B"; Add P1 "t" "A"] empty_cache);
    [apply matched_empty | vm_compute; reflexivity].
Qed.

(** The count queries on [chatter_node]: an absolute name is also looked up
    behind the prefixes, a relative name is not. *)
Example chatter_node_counts :
  count_after
    <$> match __rmw_count_publishers this_rmw (Some chatter_node)
                "/chatter" 0%Z None with
        | Ok res => Some res | Undefined => None end = Some 2%Z ∧
  count_after
    <$> match __rmw_count_subscribers this_rmw (Some chatter_node)
                "/chatter" 0%Z None with
        | Ok res => Some res | Undefined => None end = Some 1%Z ∧
  count_after
    <$> match __rmw_count_publishers this_rmw (Some chatter_node)
                "rt/chatter" 0%Z None with
        | Ok res => Some res | Undefined => None end = Some 2%Z ∧
  count_after
    <$> match __rmw_count_publishers this_rmw (Some chatter_node)
                "chatter" 0%Z None with
        | Ok res => Some res | Undefined => None end = Some 0%Z ∧
  ret
    <$> match __rmw_count_publishers other_rmw (Some chatter_node)
                "/chatter" 7%Z None with
        | Ok res => Some res | Undefined => None end = Some RMW_RET_ERROR.
Proof. split_and!; vm_compute; reflexivity. Qed.

Lemma removeTopic_frame_witness :
  removeTopic P1 "t" "A" two_participants = Ok (true, only_P2) ∧
  (delete "t" (topic_to_types_ only_P2)
     = delete "t" (topic_to_types_ two_participants) ∧
   delete (iHandle2GUID P1) (participant_to_topics_ only_P2)
     = delete (iHandle2GUID P1) (participant_to_topics_ two_participants) ∧
   delete "t" (default ∅ (participant_to_topics_ only_P2 !! iHandle2GUID P1))
     = delete "t"
         (default ∅ (participant_to_topics_ two_participants
                       !! iHandle2GUID P1))).
Proof.
  assert (Hrm : removeTopic P1 "t" "A" two_participants = Ok (true, only_P2))
    by (vm_compute; reflexivity).
  split; [exact Hrm|].
  exact (removeTopic_frame P1 "t" "A" two_participants true only_P2 Hrm).
Defined.

Lemma removeTopic_first_occurrence_witness :
  removeTopic P1 "t" "A" repeated = Ok (true, repeated_once) ∧
  topic_to_types_ repeated !! "t" = Some ["A"; "B"; "A"] ∧
  topic_to_types_ repeated_once !! "t" = Some ["B"; "A"] ∧
  ∃ v1 v2, topic_to_types_ repeated !! "t" = Some (v1 ++ "A" :: v2) ∧
           ("A" ∉ v1) ∧
           topic_to_types_ repeated_once !! "t" =
             if Std.empty (v1 ++ v2) then None else Some (v1 ++ v2).
Proof.
  assert (Hrm : removeTopic P1 "t" "A" repeated = Ok (true, repeated_once))
    by (vm_compute; reflexivity).
  split_and!; [exact Hrm | vm_compute; reflexivity..|].
  exact (proj1 (removeTopic_first_occurrence P1 "t" "A" repeated
                  repeated_once Hrm)).
Defined.

Lemma removeTopic_return_value_witness :
  removeTopic P1 "t" "A" two_participants = Ok (true, only_P2) ∧
  registrations only_P2 ["t"] = (registrations two_participants ["t"] - 1)%Z.
Proof.
  assert (Hrm : removeTopic P1 "t" "A" two_participants = Ok (true, only_P2))
    by (vm_compute; reflexivity).
  split; [exact Hrm|].
  exact (proj2 (proj2 (removeTopic_return_value P1 "t" "A" two_participants
                         true only_P2 Hrm))).
Defined.

Lemma matched_removal_defined_witness :
  matched_reachable repeated ∧ holds repeated P1 "t" "A" ∧
  ∃ c', removeTopic P1 "t" "A" repeated = Ok (true, c') ∧
        matched_reachable c' ∧
        registrations c' ["t"] = (registrations repeated ["t"] - 1)%Z.
Proof.
  assert (Hheld : holds repeated P1 "t" "A") by (vm_compute; left).
  split_and!; [apply repeated_matched | exact Hheld |].
  exact (matched_removal_defined P1 "t" "A" repeated repeated_matched Hheld).
Defined.

Lemma reachable_global_covered_witness :
  reachable ghost ∧ global_types ghost "t" ⊆ participants_types ghost "t".
Proof.
  split; [apply ghost_reachable|].
  exact (reachable_global_covered ghost "t" ghost_reachable).
Defined.

Lemma exec_count_change_witness :
  exec (Remove P1 "t" "A") two_participants = Ok (true, only_P2) ∧
  registrations only_P2 ["t"] =
    (registrations two_participants ["t"]
     + count_change (Remove P1 "t" "A") true "t")%Z.
Proof.
  assert (Hrm : exec (Remove P1 "t" "A") two_participants = Ok (true, only_P2))
    by (vm_compute; reflexivity).
  split; [exact Hrm|].
  exact (exec_count_change (Remove P1 "t" "A") two_participants true only_P2
           "t" Hrm).
Defined.

Lemma cloneParticipantTopics_found_iff_witness :
  reachable orphan ∧
  ∃ found snapshot,
    cloneParticipantTopics P2 ∅ orphan = Ok ((found, snapshot), orphan) ∧
    (found = true ↔ ∃ t ty, ty ∈ local_types orphan P2 t) ∧
    (if found
     then participant_to_topics_ orphan !! P2 = Some snapshot ∧
          snapshot ≠ ∅ ∧ types_nonempty snapshot
     else snapshot = ∅).
Proof.
  split; [apply orphan_reachable|].
  exact (cloneParticipantTopics_found_iff orphan P2 ∅ orphan_reachable).
Defined.

Lemma addTopic_commute_witness :
  "t" ≠ "u" ∧
  (addTopic P1 "t" "A";; addTopic P1 "u" "B") one_type =
  (addTopic P1 "u" "B";; addTopic P1 "t" "A") one_type.
Proof.
  assert (Hne : "t" ≠ "u") by discriminate.
  split; [exact Hne|].
  exact (addTopic_commute P1 "t" "A" P1 "u" "B" one_type Hne).
Defined.

Lemma remove_add_round_trip_witness :
  holds repeated P1 "t" "A" ∧
  removeTopic P1 "t" "A" repeated = Ok (true, repeated_once) ∧
  addTopic P1 "t" "A" repeated_once =
  Ok (true,
      mkTopicCache
        (alter (move_to_back "A") "t" (topic_to_types_ repeated))
        (alter (alter (move_to_back "A") "t") (iHandle2GUID P1)
           (participant_to_topics_ repeated))).
Proof.
  assert (Hheld : holds repeated P1 "t" "A") by (vm_compute; left).
  assert (Hrm : removeTopic P1 "t" "A" repeated = Ok (true, repeated_once))
    by (vm_compute; reflexivity).
  split_and!; [exact Hheld | exact Hrm |].
  exact (remove_add_round_trip P1 "t" "A" repeated repeated_once Hheld Hrm).
Defined.

Lemma rmw_count_ok_witness :
  implementation_identifier chatter_node = this_rmw ∧
  __rmw_count_publishers this_rmw (Some chatter_node) "/chatter" 0%Z None =
    Ok (mk_rmw_count_result RMW_RET_OK
          (registrations (writer_topic_cache (data chatter_node))
             (build_topic_fqdns "/chatter") mod Std.SIZE_MOD)%Z
          None (Some chatter_node)).
Proof.
  split; [reflexivity|].
  exact (proj1 (rmw_count_ok this_rmw chatter_node "/chatter" 0%Z None
                  eq_refl)).
Defined.

Lemma rmw_count_after_discovery_witness :
  implementation_identifier chatter_node = this_rmw ∧
  addTopic P1 "rt/chatter" "std_msgs/String"
    (writer_topic_cache (data chatter_node)) = Ok (true, chatter_writers_3) ∧
  ∃ pub pub' sub sub',
    __rmw_count_publishers this_rmw (Some chatter_node) "/chatter" 0%Z None
      = Ok pub ∧
    __rmw_count_publishers this_rmw
      (Some (mk_rmw_node_t this_rmw
               (mkCustomParticipantInfo chatter_writers_3
                  (reader_topic_cache (data chatter_node)))))
      "/chatter" 0%Z None = Ok pub' ∧
    __rmw_count_subscribers this_rmw (Some chatter_node) "/chatter" 0%Z None
      = Ok sub ∧
    __rmw_count_subscribers this_rmw
      (Some (mk_rmw_node_t this_rmw
               (mkCustomParticipantInfo chatter_writers_3
                  (reader_topic_cache (data chatter_node)))))
      "/chatter" 0%Z None = Ok sub' ∧
    count_after pub' =
      Std.size_add (count_after pub)
        (Z.of_nat (length (filter (λ name, name = "rt/chatter")
                             (build_topic_fqdns "/chatter")))) ∧
    count_after sub' = count_after sub.
Proof.
  assert (Hadd : addTopic P1 "rt/chatter" "std_msgs/String"
                   (writer_topic_cache (data chatter_node))
                 = Ok (true, chatter_writers_3)) by (vm_compute; reflexivity).
  split_and!; [reflexivity | exact Hadd |].
  exact (rmw_count_after_discovery this_rmw chatter_node P1 "rt/chatter"
           "std_msgs/String" true chatter_writers_3 "/chatter" 0%Z None
           eq_refl Hadd).
Defined.

Lemma cloneTopicToTypes_keys_witness :
  reachable orphan ∧
  ∃ snapshot,
    cloneTopicToTypes orphan = Ok (snapshot, orphan) ∧
    (is_Some (snapshot !! "t") ↔ (0 < registrations orphan ["t"])%Z) ∧
    types_nonempty snapshot.
Proof.
  split; [apply orphan_reachable|].
  exact (cloneTopicToTypes_keys orphan "t" orphan_reachable).
Defined.

Lemma removeTopic_not_held_witness :
  ("A" ∈ default [] (topic_to_types_ one_type !! "t")) ∧
  default ∅ (participant_to_topics_ one_type !! iHandle2GUID P2) !! "t"
    = None ∧
  ∃ c', removeTopic P2 "t" "A" one_type = Ok (true, c') ∧
        participant_to_topics_ c' = participant_to_topics_ one_type ∧
        global_types one_type "t" = {[+ "A" +]} ⊎ global_types c' "t".
Proof.
  assert (Hin : "A" ∈ default [] (topic_to_types_ one_type !! "t"))
    by (vm_compute; left).
  assert (Hnone : default ∅ (participant_to_topics_ one_type
                               !! iHandle2GUID P2) !! "t" = None)
    by (vm_compute; reflexivity).
  split_and!; [exact Hin | exact Hnone |].
  exact (removeTopic_not_held P2 "t" "A" one_type Hin Hnone).
Defined.
